(** * xkcdfeed: the fetch / rewrite / cache pipeline of [app/hello.go]

    A shallow embedding of the Go program.  Go strings and byte slices are
    lists of bytes; the two regular expressions are embedded by the matchers
    the [regexp] package runs for them; calls that leave the process
    (memcache, urlfetch, the context log) are operations of a small free
    monad, answered by a handler; [encoding/xml], [html.UnescapeString] and
    the template are parameters of the development. *)

From Stdlib Require Import NArith ZArith Lia.
From Stdlib Require Import Strings.Byte.
From Equations Require Import Equations.
From stdpp Require Import base option list strings gmap.

Set Default Proof Using "Type".

(** ** Bytes and literals *)

Abbreviation bytes := (list byte).

(** The bytes of an ASCII literal of the source. *)
Definition lit (s : string) : bytes := String.list_byte_of_string s.

(** The double quote, byte 0x22. *)
Definition dquote : byte := x22.
(** The line feed, byte 0x0A. *)
Definition newline : byte := x0a.

#[global] Instance byte_eq_decision : EqDecision byte := Byte.byte_eq_dec.

(** ** [unicode/utf8]: how many bytes [DecodeRune] consumes *)

Module utf8.

(** Continuation bytes lie in [locb, hicb]. *)
Definition locb : N := 0x80.
Definition hicb : N := 0xBF.

(** The table [first] joined with [acceptRanges]: for a leading byte, the
    size of the sequence it announces and the range accepted for the second
    byte.  [None] stands for the entries [as] (ASCII) and [xx] (invalid),
    which both give size 1. *)
Definition first (p0 : byte) : option (nat * N * N) :=
  let n := Byte.to_N p0 in
  if (n <? 0xC2)%N then None
  else if (n <=? 0xDF)%N then Some (2, locb, hicb)
  else if (n =? 0xE0)%N then Some (3, 0xA0%N, hicb)
  else if (n <=? 0xEC)%N then Some (3, locb, hicb)
  else if (n =? 0xED)%N then Some (3, locb, 0x9F%N)
  else if (n <=? 0xEF)%N then Some (3, locb, hicb)
  else if (n =? 0xF0)%N then Some (4, 0x90%N, hicb)
  else if (n <=? 0xF3)%N then Some (4, locb, hicb)
  else if (n =? 0xF4)%N then Some (4, locb, 0x8F%N)
  else None.

(** [b < lo || hi < b] of the source, negated. *)
Definition accepted (lo hi : N) (b : byte) : bool :=
  (lo <=? Byte.to_N b)%N && (Byte.to_N b <=? hi)%N.

(** The size component of [utf8.DecodeRune(p)]: 0 on empty input, 1 on
    ASCII and on every byte of an invalid sequence, else the length of the
    encoding. *)
Definition DecodeRune_size (p : bytes) : nat :=
  match p with
  | [] => 0
  | p0 :: _ =>
    match first p0 with
    | None => 1
    | Some (sz, lo, hi) =>
      if length p <? sz then 1 else
      match p !! 1 with
      | None => 1
      | Some b1 =>
        if negb (accepted lo hi b1) then 1
        else if sz <=? 2 then 2
        else match p !! 2 with
        | None => 1
        | Some b2 =>
          if negb (accepted locb hicb b2) then 1
          else if sz <=? 3 then 3
          else match p !! 3 with
          | None => 1
          | Some b3 => if negb (accepted locb hicb b3) then 1 else 4
          end
        end
      end
    end
  end.

Arguments DecodeRune_size : simpl never.

End utf8.

(** ** [regexp]: the matchers of the two expressions of the source *)

(** A literal of the pattern: [strip_prefix p s] is what remains of [s]
    after [p], when [s] starts with [p]. *)
Fixpoint strip_prefix (p s : bytes) : option bytes :=
  match p with
  | [] => Some s
  | a :: p' =>
    match s with
    | [] => None
    | c :: s' => if Byte.eqb a c then strip_prefix p' s' else None
    end
  end.

(** The pattern [.]: one rune, as [utf8.DecodeRune] cuts it, other than the
    line feed (the flag [s] is off). *)
Definition any_char (s : bytes) : option bytes :=
  match s with
  | [] => None
  | c :: _ => if Byte.eqb c newline then None else Some (drop (utf8.DecodeRune_size s) s)
  end.

(** The negated class under the star (any rune but the double quote, as
    often as possible): the longest run of runes other than the double
    quote.  A rune of several bytes holds bytes from 0x80 on only, so the run
    ends at the first byte 0x22 or at the end of the text. *)
Fixpoint not_quote_run (s : bytes) : bytes :=
  match s with
  | [] => []
  | c :: s' => if Byte.eqb c dquote then [] else c :: not_quote_run s'
  end.

(** *** [altExp]: the literal alt= and a double quote, any run of runes
    other than the double quote, and a closing double quote *)

Definition alt_open : bytes := Eval cbv in lit "alt=" ++ [dquote].

(** A match of [altExp] at the start of [s]: the matched text. *)
Definition altExp_match (s : bytes) : option bytes :=
  s1 ← strip_prefix alt_open s;
  let v := not_quote_run s1 in
  match drop (length v) s1 with
  | [] => None
  | q :: _ => Some (alt_open ++ v ++ [q])
  end.

(** [altExp.FindString(s)]: the text of the leftmost match, the empty
    string if there is none.  A match begins with the ASCII letter a, so
    trying every offset is trying every rune boundary where one can begin. *)
Fixpoint altExp_FindString (s : bytes) : bytes :=
  match altExp_match s with
  | Some m => m
  | None => match s with [] => [] | _ :: s' => altExp_FindString s' end
  end.

(** *** [httpExp = regexp.MustCompile(`http://(imgs\.)?xkcd.com`)] *)

Definition lit_http : bytes := Eval cbv in lit "http://".
Definition lit_imgs : bytes := Eval cbv in lit "imgs.".
Definition lit_xkcd : bytes := Eval cbv in lit "xkcd".
Definition lit_com : bytes := Eval cbv in lit "com".

(** [xkcd.com] of the pattern: the dot is not escaped. *)
Definition xkcd_dot_com (s : bytes) : option bytes :=
  s1 ← strip_prefix lit_xkcd s;
  s2 ← any_char s1;
  strip_prefix lit_com s2.

(** A match of [httpExp] at the start of [s]: the text of group 1 (empty
    when the group took no part) and what follows the match.  The group is
    tried first. *)
Definition httpExp_match (s : bytes) : option (bytes * bytes) :=
  s1 ← strip_prefix lit_http s;
  match s2 ← strip_prefix lit_imgs s1; xkcd_dot_com s2 with
  | Some rest => Some (lit_imgs, rest)
  | None => rest ← xkcd_dot_com s1; Some ([], rest)
  end.

(** The leftmost match at or after the start of [s]: the text before it,
    group 1, and the text after it.  The search of the package moves rune
    by rune; a match begins with the ASCII letter h, which no rune of several
    bytes holds, so every offset where a match can begin is tried. *)
Fixpoint httpExp_find (s : bytes) : option (bytes * bytes * bytes) :=
  match httpExp_match s with
  | Some (g, rest) => Some ([], g, rest)
  | None =>
    match s with
    | [] => None
    | c :: s' =>
      match httpExp_find s' with
      | Some (pre, g, rest) => Some (c :: pre, g, rest)
      | None => None
      end
    end
  end.

(** [httpsReplacement = []byte("https://${1}xkcd.com")], expanded. *)
Definition lit_https : bytes := Eval cbv in lit "https://".
Definition lit_xkcd_com : bytes := Eval cbv in lit "xkcd.com".
Definition httpsReplacement (group1 : bytes) : bytes :=
  lit_https ++ group1 ++ lit_xkcd_com.

Lemma strip_prefix_length p s r :
  strip_prefix p s = Some r → length s = length p + length r.
Proof.
  revert s; induction p as [|a p IH]; intros [|c s] H; simplify_eq/=; auto.
  destruct (Byte.eqb a c); [|done]. by rewrite (IH _ H).
Qed.

Lemma DecodeRune_size_pos c s : 1 ≤ utf8.DecodeRune_size (c :: s).
Proof.
  unfold utf8.DecodeRune_size.
  repeat case_match; simpl; lia.
Qed.

Lemma any_char_length s r : any_char s = Some r → length r < length s.
Proof.
  destruct s as [|c s]; [done|]. unfold any_char.
  pose proof (DecodeRune_size_pos c s) as Hp.
  destruct (Byte.eqb c newline); [done|].
  revert Hp. generalize (utf8.DecodeRune_size (c :: s)). intros n Hn [= <-].
  rewrite length_drop. cbn [length]. lia.
Qed.

Lemma xkcd_dot_com_length s r : xkcd_dot_com s = Some r → length r < length s.
Proof.
  unfold xkcd_dot_com. intros H.
  apply bind_Some in H as (s1 & H1 & H).
  apply bind_Some in H as (s2 & H2 & H3).
  apply strip_prefix_length in H1, H3. apply any_char_length in H2. lia.
Qed.

Lemma httpExp_match_length s g rest :
  httpExp_match s = Some (g, rest) → length rest < length s.
Proof.
  unfold httpExp_match. intros H.
  apply bind_Some in H as (s1 & H1 & H).
  apply strip_prefix_length in H1.
  destruct (s2 ← strip_prefix lit_imgs s1; xkcd_dot_com s2) as [r|] eqn:E2.
  - injection H as <- <-. apply bind_Some in E2 as (s2 & E2 & E3).
    apply strip_prefix_length in E2. apply xkcd_dot_com_length in E3. lia.
  - apply bind_Some in H as (r & E3 & [= <- <-]).
    apply xkcd_dot_com_length in E3. lia.
Qed.

Lemma httpExp_find_length s pre g rest :
  httpExp_find s = Some (pre, g, rest) → length rest < length s.
Proof.
  revert pre; induction s as [|c s IH]; intros pre; simpl.
  - done.
  - destruct (httpExp_match (c :: s)) as [[g' r']|] eqn:E.
    + intros; simplify_eq. by apply httpExp_match_length in E.
    + destruct (httpExp_find s) as [[[p' g'] r']|] eqn:F; [|done].
      intros; simplify_eq. specialize (IH _ eq_refl). simpl. lia.
Qed.

(** A value together with the equation that it is what was computed. *)
Definition inspect {A} (a : A) : {b | a = b} := exist _ a eq_refl.

(** [httpExp.ReplaceAll(src, httpsReplacement)]: the loop of the package
    copies the text before the next match, appends the expanded replacement
    and goes on after the match; what follows the last match is copied. *)
Equations? ReplaceAll (src : bytes) : bytes by wf (length src) lt :=
  ReplaceAll src with inspect (httpExp_find src) := {
    | exist _ None _ => src
    | exist _ (Some (pre, g, rest)) H => pre ++ httpsReplacement g ++ ReplaceAll rest }.
Proof. by apply httpExp_find_length in H. Qed.

(** ** The data model: [Link], [Feed], [Entry] *)

Record Link := {
  Href : bytes;
  Rel : bytes
}.

(** The anonymous struct of the field [Summary]. *)
Record Summary := {
  Summary_Type : bytes;
  Body : bytes
}.

Record Entry := {
  Entry_Title : bytes;
  Entry_Link : list Link;
  Entry_Updated : bytes;
  Entry_ID : bytes;
  Entry_Summary : Summary
}.

Record Feed := {
  XMLName : bytes * bytes;
  Lang : bytes;
  Title : bytes;
  Feed_Link : list Link;
  ID : bytes;
  Updated : bytes;
  Feed_Entry : list Entry
}.

(** ** [AltText] *)

(** The slice expression [s[lo:hi]] of a string; [None] is the run-time
    panic on bounds out of range. *)
Definition slice (s : bytes) (lo hi : nat) : option bytes :=
  if decide (lo ≤ hi ∧ hi ≤ length s) then Some (take (hi - lo) (drop lo s)) else None.

(** The method [AltText() string] of [Entry]; [None] stands for a panic. *)
Definition AltText (e : Entry) : option bytes :=
  let s := altExp_FindString (Body (Entry_Summary e)) in
  if decide (s = []) then Some s
  else slice s 5 (length s - 1).

(** ** Calls that leave the process *)

(** A Go [error], by its message. *)
Abbreviation error := string.

(** [memcache.Item], the fields the program sets or reads. *)
Record Item := {
  Key : string;
  Value : bytes;
  Expiration : Z
}.

(** [http.Response]: the status; the body is read by [ioutil_ReadAll]. *)
Record Response := {
  StatusCode : Z
}.

(** [time.Minute], in nanoseconds as [time.Duration] counts. *)
Definition Minute : Z := 60 * 1000000000.
Definition StatusOK : Z := 200.
Definition StatusInternalServerError : Z := 500.

(** The operations the program asks of its environment, with the type of
    the answer: [(v, nil)] is [inl v] and [(nil, err)] is [inr err]. *)
Inductive Op : Type → Type :=
| memcache_Get (key : string) : Op (Item + error)
| memcache_Set (item : Item) : Op (option error)
| ctx_Infof (msg : string) : Op unit
| client_Get (url : string) : Op (Response + error)
| ioutil_ReadAll : Op (bytes + error)
| Body_Close : Op unit.

(** A program: it returns, or calls an operation and goes on with the
    answer. *)
Inductive Prog (A : Type) : Type :=
| Ret (a : A)
| Call {X : Type} (op : Op X) (k : X → Prog A).
Arguments Ret {A} a.
Arguments Call {A X} op k.

Fixpoint bind {A B : Type} (p : Prog A) (f : A → Prog B) : Prog B :=
  match p with
  | Ret a => f a
  | Call op k => Call op (λ x, bind (k x) f)
  end.

Definition call {X : Type} (op : Op X) : Prog X := Call op Ret.

#[global] Instance Prog_ret : MRet Prog := @Ret.
#[global] Instance Prog_bind : MBind Prog := λ A B f p, bind p f.

(** An environment over states [W] answers every operation. *)
Definition Handler (W : Type) : Type := ∀ X : Type, Op X → W → X * W.

(** One call and its answer. *)
Inductive Event : Type :=
| Ev {X : Type} (op : Op X) (x : X).

(** Running a program in an environment: the result, the final state and
    the calls made, in order. *)
Fixpoint run {W A : Type} (h : Handler W) (p : Prog A) (w : W) : A * W * list Event :=
  match p with
  | Ret a => (a, w, [])
  | Call op k =>
    let '(x, w1) := h _ op w in
    let '(a, w2, tr) := run h (k x) w1 in
    (a, w2, Ev op x :: tr)
  end.

(** The call is an upstream request. *)
Definition is_fetch (e : Event) : bool :=
  match e with
  | Ev op _ => match op with client_Get _ => true | _ => false end
  end.

(** The call is a cache write. *)
Definition is_cache_write (e : Event) : bool :=
  match e with
  | Ev op _ => match op with memcache_Set _ => true | _ => false end
  end.

(** The call is a cache lookup at [key] that came back with an error. *)
Definition is_failed_lookup (key : string) (e : Event) : bool :=
  match e with
  | Ev op x =>
    match op in Op X return X → bool with
    | memcache_Get k => λ r, match r with inr _ => bool_decide (k = key) | inl _ => false end
    | _ => λ _, false
    end x
  end.

(** The call is an upstream request answered with a status other than
    [http.StatusOK]. *)
Definition is_bad_status (e : Event) : bool :=
  match e with
  | Ev op x =>
    match op in Op X return X → bool with
    | client_Get _ => λ r,
      match r with inl resp => bool_decide (StatusCode resp ≠ StatusOK) | inr _ => false end
    | _ => λ _, false
    end x
  end.

(** ** The program *)

Definition upstreamURL : string := "https://xkcd.com/atom.xml".
Definition atomKey : string := "/xkcd.atom".

(** The messages of the errors the program makes. *)
Definition errNotOK : error := "http request was not OK".
Definition errReadBody (err : error) : error := "failed to read response: " +:+ err.
Definition errUnmarshalFeed (err : error) : error := "failed to unmarshal feed: " +:+ err.
Definition errUnmarshalCached (err : error) : error :=
  "failed to unmarshal cached feed: " +:+ err.

(** What a handler does to its [http.ResponseWriter], call by call. *)
Inductive WriterCall :=
| Header_Set (key value : string)
| WriteHeader (code : Z)
| Write_ (b : bytes).

(** [http.Error(w, msg, code)]. *)
Definition http_Error (msg : string) (code : Z) : list WriterCall :=
  [ Header_Set "Content-Type" "text/plain; charset=utf-8";
    Header_Set "X-Content-Type-Options" "nosniff";
    WriteHeader code;
    Write_ (lit msg ++ [newline]) ].

Record pageEntry := {
  pageEntry_Title : bytes;
  Img : bytes;
  Text : bytes
}.

(** [xml.Header]. *)
Definition xml_Header : bytes :=
  Eval cbv in
    lit "<?xml version=" ++ [dquote] ++ lit "1.0" ++ [dquote] ++
    lit " encoding=" ++ [dquote] ++ lit "UTF-8" ++ [dquote] ++ lit "?>" ++ [newline].

Section Program.

(** [encoding/xml], [html] and the parsed template, as the program uses
    them. *)
Variable xml_Marshal : Feed → bytes + error.
Variable xml_Unmarshal : bytes → Feed + error.
Variable html_UnescapeString : bytes → bytes.
Variable mainTemplate_Execute : list pageEntry → bytes * option error.

(** [func getUpstreamAtom(ctx appengine.Context)], returning a feed or an
    error.  The
    deferred [Close] is registered after the status check and runs at every
    later return. *)
Definition getUpstreamAtom : Prog (Feed + error) :=
  r ← call (client_Get upstreamURL);
  match r with
  | inr err => mret (inr err)
  | inl resp =>
    if decide (StatusCode resp ≠ StatusOK) then mret (inr errNotOK)
    else
      rb ← call ioutil_ReadAll;
      match rb with
      | inr err => _ ← call Body_Close; mret (inr (errReadBody err))
      | inl b =>
        match xml_Unmarshal (ReplaceAll b) with
        | inr err => _ ← call Body_Close; mret (inr (errUnmarshalFeed err))
        | inl feed => _ ← call Body_Close; mret (inl feed)
        end
      end
  end.

(** The item the fetch path stores. *)
Definition atomItem (b : bytes) : Item :=
  {| Key := atomKey; Value := b; Expiration := 5 * Minute |}.

(** [func cachingGetUpstreamAtom(ctx appengine.Context)], returning a
    feed or an error. *)
Definition cachingGetUpstreamAtom : Prog (Feed + error) :=
  r ← call (memcache_Get atomKey);
  match r with
  | inr _ =>
    _ ← call (ctx_Infof "making request to xkcd.com");
    rf ← getUpstreamAtom;
    match rf with
    | inr err => mret (inr err)
    | inl feed =>
      match xml_Marshal feed with
      | inl b => _ ← call (memcache_Set (atomItem b)); mret (inl feed)
      | inr _ => mret (inl feed)
      end
    end
  | inl item =>
    _ ← call (ctx_Infof "found feed in cache");
    match xml_Unmarshal (Value item) with
    | inr err => mret (inr (errUnmarshalCached err))
    | inl feed => mret (inl feed)
    end
  end.

(** The entry after [Summary.Body += "\n" + alt]. *)
Definition with_caption (e : Entry) (alt : bytes) : Entry :=
  {| Entry_Title := Entry_Title e; Entry_Link := Entry_Link e;
     Entry_Updated := Entry_Updated e; Entry_ID := Entry_ID e;
     Entry_Summary :=
       {| Summary_Type := Summary_Type (Entry_Summary e);
          Body := Body (Entry_Summary e) ++ [newline] ++ alt |} |}.

(** The feed after an assignment to an element of [feed.Entry]: the slice
    holds [entries], the other fields are untouched. *)
Definition with_entries (feed : Feed) (entries : list Entry) : Feed :=
  {| XMLName := XMLName feed; Lang := Lang feed; Title := Title feed;
     Feed_Link := Feed_Link feed; ID := ID feed; Updated := Updated feed;
     Feed_Entry := entries |}.

(** [feed.Entry[i].Summary.Body += "\n" + feed.Entry[i].AltText()]: the
    assignment to the element of the slice the feed holds.  [None] is a
    panic (an index out of range, or one of [AltText]). *)
Definition appendAltText (feed : Feed) (i : nat) : option Feed :=
  e ← Feed_Entry feed !! i;
  alt ← AltText e;
  Some (with_entries feed (<[i := with_caption e alt]> (Feed_Entry feed))).

(** [for i := range feed.Entry { ... }] over the indices [ix] left. *)
Fixpoint appendAltTexts (ix : list nat) (feed : Feed) : option Feed :=
  match ix with
  | [] => Some feed
  | i :: ix' => feed' ← appendAltText feed i; appendAltTexts ix' feed'
  end.

(** [atomHandler] from the loop on, on the feed the handler holds: the
    feed as the handler leaves it, and what it did to the writer. *)
Definition atomHandler_render (feed : Feed) : option (Feed * list WriterCall) :=
  feed' ← appendAltTexts (seq 0 (length (Feed_Entry feed))) feed;
  match xml_Marshal feed' with
  | inr _ => Some (feed', http_Error "failed to marshal feed" StatusInternalServerError)
  | inl b =>
    Some (feed', [ Header_Set "Content-Type" "application/atom+xml";
                   Write_ xml_Header; Write_ b ])
  end.

(** [func atomHandler(w, r)]: the feed
    the handler held at the end, if it got one, and the calls on [w].  The
    outer [None] is a panic. *)
Definition atomHandler : Prog (option (option Feed * list WriterCall)) :=
  r ← cachingGetUpstreamAtom;
  match r with
  | inr err =>
    mret (Some (None, http_Error ("failed to get upstream atom: " +:+ err)
                                 StatusInternalServerError))
  | inl feed =>
    mret (match atomHandler_render feed with
          | Some (feed', out) => Some (Some feed', out)
          | None => None
          end)
  end.

(** The body of the loop of [mainHandler]: one more [pageEntry]. *)
Definition appendPageEntry (feed : Feed) (entries : list pageEntry) (i : nat)
  : option (list pageEntry) :=
  e ← Feed_Entry feed !! i;
  let imgTag := html_UnescapeString (Body (Entry_Summary e)) in
  alt ← AltText e;
  let text := html_UnescapeString alt in
  Some (entries ++ [ {| pageEntry_Title := Entry_Title e; Img := imgTag; Text := text |} ]).

Fixpoint pageEntries (ix : list nat) (feed : Feed) (entries : list pageEntry)
  : option (list pageEntry) :=
  match ix with
  | [] => Some entries
  | i :: ix' => entries' ← appendPageEntry feed entries i; pageEntries ix' feed entries'
  end.

(** [mainHandler] from the loop on: the feed as the handler leaves it, the
    entries it hands to the template, and what it did to the writer. *)
Definition mainHandler_render (feed : Feed)
  : option (Feed * list pageEntry * list WriterCall) :=
  entries ← pageEntries (seq 0 (length (Feed_Entry feed))) feed [];
  let '(written, err) := mainTemplate_Execute entries in
  match err with
  | Some _ =>
    Some (feed, entries,
          Write_ written :: http_Error "failed to execute template" StatusInternalServerError)
  | None => Some (feed, entries, [Write_ written])
  end.

(** [func mainHandler(w, r)]. *)
Definition mainHandler : Prog (option (option Feed * list WriterCall)) :=
  r ← cachingGetUpstreamAtom;
  match r with
  | inr err =>
    mret (Some (None, http_Error ("failed to get upstream atom: " +:+ err)
                                 StatusInternalServerError))
  | inl feed =>
    mret (match mainHandler_render feed with
          | Some (feed', _, out) => Some (Some feed', out)
          | None => None
          end)
  end.

End Program.

(** ** An environment with a clock

    The memcache service as the program's calls and section 6 of the
    specification describe it: [Set] stores the value under the key for the
    item's [Expiration] (for ever when it is zero), [Get] answers with the
    value stored under the key while it has not expired and with a miss
    otherwise; either fails while the service is down.  The upstream server
    answers every request the same way. *)

Record World := {
  now : Z;
  store : gmap string (bytes * option Z);
  memcache_down : option error;
  upstream : Response + error;
  upstream_body : bytes + error;
  log : list string
}.

(** [memcache.ErrCacheMiss]. *)
Definition ErrCacheMiss : error := "memcache: cache miss".

Definition set_store (st : gmap string (bytes * option Z)) (w : World) : World :=
  {| now := now w; store := st; memcache_down := memcache_down w;
     upstream := upstream w; upstream_body := upstream_body w; log := log w |}.

Definition set_log (l : list string) (w : World) : World :=
  {| now := now w; store := store w; memcache_down := memcache_down w;
     upstream := upstream w; upstream_body := upstream_body w; log := l |}.

(** Time passes: the clock reads [t]. *)
Definition at_time (t : Z) (w : World) : World :=
  {| now := t; store := store w; memcache_down := memcache_down w;
     upstream := upstream w; upstream_body := upstream_body w; log := log w |}.

(** The item is still to be served at time [t]. *)
Definition fresh (t : Z) (deadline : option Z) : bool :=
  match deadline with
  | None => true
  | Some d => bool_decide (t < d)%Z
  end.

Definition world_Get (key : string) (w : World) : Item + error :=
  match memcache_down w with
  | Some err => inr err
  | None =>
    match store w !! key with
    | Some (v, deadline) =>
      if fresh (now w) deadline
      then inl {| Key := key; Value := v; Expiration := 0%Z |}
      else inr ErrCacheMiss
    | None => inr ErrCacheMiss
    end
  end.

Definition world_Set (item : Item) (w : World) : option error * World :=
  match memcache_down w with
  | Some err => (Some err, w)
  | None =>
    let deadline :=
      if bool_decide (Expiration item = 0%Z) then None
      else Some (now w + Expiration item)%Z in
    (None, set_store (<[Key item := (Value item, deadline)]> (store w)) w)
  end.

Definition world : Handler World :=
  λ X op,
    match op in Op X return World → X * World with
    | memcache_Get key => λ w, (world_Get key w, w)
    | memcache_Set item => λ w, world_Set item w
    | ctx_Infof msg => λ w, (tt, set_log (log w ++ [msg]) w)
    | client_Get _ => λ w, (upstream w, w)
    | ioutil_ReadAll => λ w, (upstream_body w, w)
    | Body_Close => λ w, (tt, w)
    end.

(** ** Sample values *)

(** A feed with a title and nothing else. *)
Definition sample_feed (title : bytes) : Feed :=
  {| XMLName := ([], []); Lang := []; Title := title; Feed_Link := [];
     ID := []; Updated := []; Feed_Entry := [] |}.

(** A stand-in for [encoding/xml] in the examples: a feed is written as its
    title, and any text but the empty one is read as the title of a feed
    with no entries. *)
Definition sample_Marshal (feed : Feed) : bytes + error := inl (Title feed).

Definition sample_Unmarshal (b : bytes) : Feed + error :=
  match b with
  | [] => inr "EOF"%string
  | _ => inl (sample_feed b)
  end.

(** A world at time 0 whose cache is empty and whose upstream answers with
    the status [status] and the body [b]. *)
Definition sample_world (status : Z) (b : bytes) : World :=
  {| now := 0%Z; store := ∅; memcache_down := None;
     upstream := inl {| StatusCode := status |}; upstream_body := inl b; log := [] |}.

(** An entry whose summary body is [body]. *)
Definition sample_entry (body : bytes) : Entry :=
  {| Entry_Title := []; Entry_Link := []; Entry_Updated := []; Entry_ID := [];
     Entry_Summary := {| Summary_Type := []; Body := body |} |}.

(** The body of the example of the specification:
    foo, an img tag with alt bar and src x, baz. *)
Definition spec_body : bytes :=
  Eval cbv in
    lit "foo <img " ++ alt_open ++ lit "bar" ++ [dquote] ++
    lit " src=" ++ [dquote] ++ lit "x" ++ [dquote] ++ lit "> baz".

(** The same world while the memcache service is down. *)
Definition sample_outage (w : World) : World :=
  {| now := now w; store := store w; memcache_down := Some "memcache: server error"%string;
     upstream := upstream w; upstream_body := upstream_body w; log := log w |}.

(** The same world with [b] stored under the key, for ever. *)
Definition sample_cached (b : bytes) (w : World) : World :=
  set_store (<[atomKey := (b, None)]> (store w)) w.

(** A feed with one entry, whose body is the example of the
    specification. *)
Definition sample_feed_with_entry : Feed :=
  with_entries (sample_feed []) [sample_entry spec_body].

(** ** What the specification calls an occurrence of the pattern *)

(** [body] holds the pattern with value [v] after [pre] and before [post]. *)
Definition alt_occurrence (body pre v post : bytes) : Prop :=
  body = pre ++ alt_open ++ v ++ dquote :: post ∧ dquote ∉ v.

(** No occurrence starts before this one. *)
Definition first_alt_occurrence (body pre v post : bytes) : Prop :=
  alt_occurrence body pre v post ∧
  ∀ pre' v' post', alt_occurrence body pre' v' post' → length pre ≤ length pre'.

(** ** Notions used to state the properties of the rewriter *)

(** [w] is the rune [utf8.DecodeRune] cuts off [w ++ rest], and the pattern
    [.] takes it. *)
Definition rune_at (w rest : bytes) : Prop :=
  w ≠ [] ∧ head w ≠ Some newline ∧ utf8.DecodeRune_size (w ++ rest) = length w.

(** The letters h and t of the scheme. *)
Definition byte_h : byte := x68.
Definition byte_t : byte := x74.

(** The entry as the republish adapter leaves it. *)
Definition captioned (e : Entry) : Entry := with_caption e (default [] (AltText e)).

(** The text holds no reference with the insecure scheme at all. *)
Definition secure_only (s : bytes) : Prop :=
  ∀ pre post, s ≠ pre ++ lit_http ++ post.

(** ** Notions used to state further properties *)

(** The call is an upstream request answered with the status
    [http.StatusOK]. *)
Definition is_ok_status (e : Event) : bool :=
  match e with
  | Ev op x =>
    match op in Op X return X → bool with
    | client_Get _ => λ r,
      match r with inl resp => bool_decide (StatusCode resp = StatusOK) | inr _ => false end
    | _ => λ _, false
    end x
  end.

(** The call reads the body of the response. *)
Definition is_body_read (e : Event) : bool :=
  match e with
  | Ev op _ => match op with ioutil_ReadAll => true | _ => false end
  end.

(** The call closes the body of the response. *)
Definition is_body_close (e : Event) : bool :=
  match e with
  | Ev op _ => match op with Body_Close => true | _ => false end
  end.

(** The page entry [mainHandler] makes of an entry. *)
Definition page_of (html_UnescapeString : bytes → bytes) (e : Entry) : pageEntry :=
  {| pageEntry_Title := Entry_Title e;
     Img := html_UnescapeString (Body (Entry_Summary e));
     Text := html_UnescapeString (default [] (AltText e)) |}.

(** Stand-ins for [html.UnescapeString] and the template in the examples. *)
Definition sample_Unescape (s : bytes) : bytes := s.
Definition sample_Execute (entries : list pageEntry) : bytes * option error := ([], None).

(** * Properties *)

(** ** Literals and runs *)

Lemma byte_eqb_true a c : Byte.eqb a c = true ↔ a = c.
Proof. split; [apply Byte.byte_dec_bl | apply Byte.byte_dec_lb]. Qed.

Lemma byte_eqb_false a c : Byte.eqb a c = false ↔ a ≠ c.
Proof.
  split; [apply Byte.eqb_false|]. intros Hne.
  destruct (Byte.eqb a c) eqn:E; [|done]. by apply byte_eqb_true in E.
Qed.

Lemma strip_prefix_Some p s r : strip_prefix p s = Some r ↔ s = p ++ r.
Proof.
  revert s; induction p as [|a p IH]; intros s; simpl.
  - split; congruence.
  - destruct s as [|c s]; [split; discriminate|].
    destruct (Byte.eqb a c) eqn:E.
    + apply byte_eqb_true in E as ->. rewrite IH. split; congruence.
    + apply byte_eqb_false in E. split; [discriminate | congruence].
Qed.

Lemma strip_prefix_app p r : strip_prefix p (p ++ r) = Some r.
Proof. by apply strip_prefix_Some. Qed.

Lemma not_quote_run_app v post :
  dquote ∉ v → not_quote_run (v ++ dquote :: post) = v.
Proof.
  induction v as [|c v IH]; simpl; intros Hv.
  - done.
  - apply not_elem_of_cons in Hv as [Hc Hv].
    destruct (Byte.eqb c dquote) eqn:E.
    + apply byte_eqb_true in E. congruence.
    + by rewrite IH.
Qed.

Lemma not_quote_run_spec s :
  (dquote ∉ not_quote_run s) ∧
  s = not_quote_run s ++ drop (length (not_quote_run s)) s ∧
  (drop (length (not_quote_run s)) s = [] ∨
   ∃ r, drop (length (not_quote_run s)) s = dquote :: r).
Proof.
  induction s as [|c s (IH1 & IH2 & IH3)]; simpl.
  - split; [apply not_elem_of_nil|]. split; [done|]. by left.
  - destruct (Byte.eqb c dquote) eqn:E; simpl.
    + apply byte_eqb_true in E as ->.
      split; [apply not_elem_of_nil|]. split; [done|]. right; eauto.
    + apply byte_eqb_false in E.
      split; [apply not_elem_of_cons; split; [congruence | done]|].
      split; [congruence | done].
Qed.

(** ** Matches of [altExp] *)

Lemma altExp_match_intro v post :
  dquote ∉ v →
  altExp_match (alt_open ++ v ++ dquote :: post) = Some (alt_open ++ v ++ [dquote]).
Proof.
  intros Hv. unfold altExp_match.
  rewrite strip_prefix_app. cbn [mbind option_bind].
  rewrite not_quote_run_app by done.
  by rewrite drop_app_length.
Qed.

Lemma altExp_match_elim s m :
  altExp_match s = Some m →
  ∃ v post, alt_occurrence s [] v post ∧ m = alt_open ++ v ++ [dquote].
Proof.
  unfold altExp_match. intros H.
  apply bind_Some in H as (s1 & H1 & H).
  apply strip_prefix_Some in H1 as ->.
  destruct (not_quote_run_spec s1) as (Hv & Hs & Hd).
  destruct (drop (length (not_quote_run s1)) s1) as [|q r] eqn:E; [done|].
  destruct Hd as [?|(r' & [= -> ->])]; [done|].
  injection H as <-.
  exists (not_quote_run s1), r'. split; [|done].
  split; [|done]. simpl. by rewrite <- Hs.
Qed.

Lemma altExp_FindString_unfold s :
  altExp_FindString s =
  match altExp_match s with
  | Some m => m
  | None => match s with [] => [] | _ :: s' => altExp_FindString s' end
  end.
Proof. by destruct s. Qed.

Lemma altExp_FindString_first body pre v post :
  first_alt_occurrence body pre v post →
  altExp_FindString body = alt_open ++ v ++ [dquote].
Proof.
  intros [[-> Hv] Hmin]. induction pre as [|c pre IH].
  - rewrite app_nil_l, altExp_FindString_unfold.
    by rewrite altExp_match_intro.
  - rewrite altExp_FindString_unfold.
    destruct (altExp_match _) as [m|] eqn:E.
    + apply altExp_match_elim in E as (v' & post' & Hocc & _).
      apply Hmin in Hocc. simpl in Hocc. lia.
    + cbn [app]. apply IH. intros pre' v' post' [Heq Hv'].
      assert (length (c :: pre) ≤ length (c :: pre')); [|simpl in *; lia].
      apply (Hmin _ v' post'). split; [|done]. cbn [app]. by f_equal.
Qed.

Lemma altExp_FindString_none body :
  (∀ pre v post, ¬ alt_occurrence body pre v post) →
  altExp_FindString body = [].
Proof.
  induction body as [|c body IH]; intros Hno.
  - done.
  - rewrite altExp_FindString_unfold.
    destruct (altExp_match _) as [m|] eqn:E.
    + apply altExp_match_elim in E as (v' & post' & Hocc & _).
      by apply Hno in Hocc.
    + apply IH. intros pre v post [Heq Hv].
      apply (Hno (c :: pre) v post). split; [|done]. cbn [app]. by f_equal.
Qed.

(** Every text holds a first occurrence of the pattern or none at all. *)
Lemma alt_occurrence_cases body :
  (∃ pre v post, first_alt_occurrence body pre v post) ∨
  (∀ pre v post, ¬ alt_occurrence body pre v post).
Proof.
  induction body as [|c body IH].
  - right. intros pre v post [Heq _].
    symmetry in Heq. apply app_eq_nil in Heq as [_ Heq]. discriminate.
  - destruct (altExp_match (c :: body)) as [m|] eqn:E.
    + apply altExp_match_elim in E as (v & post & Hocc & _).
      left. exists [], v, post. split; [done|]. intros; simpl; lia.
    + destruct IH as [(pre & v & post & [Heq Hv] & Hmin)|Hno].
      * left. exists (c :: pre), v, post. split.
        { split; [|done]. cbn [app]. by f_equal. }
        intros [|c' pre'] v' post' [Heq' Hv'].
        { rewrite app_nil_l in Heq'. rewrite Heq', altExp_match_intro in E by done. done. }
        cbn [app] in Heq'. injection Heq' as -> Heq'.
        assert (length pre ≤ length pre'); [|simpl; lia].
        by apply (Hmin _ v' post').
      * right. intros [|c' pre] v post [Heq Hv].
        { rewrite app_nil_l in Heq. rewrite Heq, altExp_match_intro in E by done. done. }
        cbn [app] in Heq. injection Heq as -> Heq. by apply (Hno pre v post).
Qed.

(** ** [AltText] *)

Lemma AltText_of_match e v :
  altExp_FindString (Body (Entry_Summary e)) = alt_open ++ v ++ [dquote] →
  AltText e = Some v.
Proof.
  intros H. unfold AltText. rewrite H. cbn zeta.
  rewrite decide_False by done.
  unfold slice. rewrite decide_True.
  2:{ rewrite !length_app. simpl. lia. }
  f_equal. change (alt_open ++ v ++ [dquote]) with (alt_open ++ (v ++ [dquote])).
  change 5 with (length alt_open). rewrite drop_app_length.
  rewrite !length_app. simpl.
  replace (length v + 1 - 1) with (length v) by lia.
  by rewrite take_app_length.
Qed.

Lemma AltText_of_no_match e :
  altExp_FindString (Body (Entry_Summary e)) = [] → AltText e = Some [].
Proof. intros H. unfold AltText. rewrite H. done. Qed.

(** [AltText] never panics. *)
Lemma AltText_total e : is_Some (AltText e).
Proof.
  destruct (alt_occurrence_cases (Body (Entry_Summary e)))
    as [(pre & v & post & H)|H].
  - apply altExp_FindString_first in H. by rewrite (AltText_of_match e v).
  - apply altExp_FindString_none in H. by rewrite AltText_of_no_match.
Qed.

(** ** Runes *)

Lemma accepted_lower lo hi b : utf8.accepted lo hi b = true → (lo ≤ Byte.to_N b)%N.
Proof. unfold utf8.accepted. intros H. apply andb_true_iff in H as [H _]. by apply N.leb_le in H. Qed.

Lemma first_Some c sz lo hi :
  utf8.first c = Some (sz, lo, hi) → (0x80 ≤ lo)%N ∧ (sz = 2 ∨ sz = 3 ∨ sz = 4).
Proof.
  unfold utf8.first, utf8.locb. cbn zeta.
  repeat case_match; intros [= <- <- <-]; (split; [lia | auto]).
Qed.

Lemma first_Some_lead c sz lo hi :
  utf8.first c = Some (sz, lo, hi) → (0xC2 ≤ Byte.to_N c)%N.
Proof.
  unfold utf8.first. cbn zeta.
  destruct (N.ltb_spec (Byte.to_N c) 0xC2); [done|]. done.
Qed.

Lemma DecodeRune_size_le_length s : utf8.DecodeRune_size s ≤ length s.
Proof.
  unfold utf8.DecodeRune_size. destruct s as [|c s]; [done|].
  destruct (utf8.first c) as [[[sz lo] hi]|] eqn:F; [|simpl; lia].
  apply first_Some in F as [_ Hsz].
  destruct (Nat.ltb_spec (length (c :: s)) sz); [simpl in *; lia|].
  repeat case_match;
    repeat match goal with H : _ !! _ = Some _ |- _ => apply lookup_lt_Some in H end;
    simpl in *; lia.
Qed.

Lemma DecodeRune_size_cont s i :
  1 ≤ i < utf8.DecodeRune_size s →
  ∃ b, s !! i = Some b ∧ (0x80 ≤ Byte.to_N b)%N.
Proof.
  unfold utf8.DecodeRune_size. destruct s as [|c s]; [lia|].
  destruct (utf8.first c) as [[[sz lo] hi]|] eqn:F; [|lia].
  apply first_Some in F as [Hlo Hsz].
  destruct (length (c :: s) <? sz); [lia|].
  destruct ((c :: s) !! 1) as [b1|] eqn:E1; [|lia].
  destruct (utf8.accepted lo hi b1) eqn:A1; cbn [negb]; [|lia].
  apply accepted_lower in A1.
  destruct (sz <=? 2).
  { intros Hi. assert (i = 1) as -> by lia. exists b1. split; [done|lia]. }
  destruct ((c :: s) !! 2) as [b2|] eqn:E2; [|lia].
  destruct (utf8.accepted utf8.locb utf8.hicb b2) eqn:A2; cbn [negb]; [|lia].
  apply accepted_lower in A2.
  destruct (sz <=? 3).
  { intros Hi. assert (i = 1 ∨ i = 2) as [-> | ->] by lia; eauto. exists b1. split; [done|lia]. }
  destruct ((c :: s) !! 3) as [b3|] eqn:E3; [|lia].
  destruct (utf8.accepted utf8.locb utf8.hicb b3) eqn:A3; cbn [negb]; [|lia].
  apply accepted_lower in A3.
  intros Hi. assert (i = 1 ∨ i = 2 ∨ i = 3) as [-> | [-> | ->]] by lia; eauto.
  exists b1. split; [done|lia].
Qed.

Lemma DecodeRune_size_ascii c s :
  (Byte.to_N c < 0x80)%N → utf8.DecodeRune_size (c :: s) = 1.
Proof.
  intros Hc. unfold utf8.DecodeRune_size.
  destruct (utf8.first c) as [[[sz lo] hi]|] eqn:F; [|done].
  apply first_Some_lead in F. lia.
Qed.

(** The size depends on the first four bytes only. *)
Lemma DecodeRune_size_take s : utf8.DecodeRune_size (take 4 s) = utf8.DecodeRune_size s.
Proof.
  unfold utf8.DecodeRune_size. destruct s as [|c s]; [done|]. cbn [take].
  destruct (utf8.first c) as [[[sz lo] hi]|] eqn:F; [|done].
  apply first_Some in F as [_ Hsz].
  replace (length (c :: take 3 s) <? sz) with (length (c :: s) <? sz).
  2:{ cbn [length]. rewrite length_take.
      destruct (Nat.ltb_spec (S (length s)) sz), (Nat.ltb_spec (S (3 `min` length s)) sz); try done; lia. }
  change ((c :: take 3 s) !! 1) with (take 3 s !! 0).
  change ((c :: take 3 s) !! 2) with (take 3 s !! 1).
  change ((c :: take 3 s) !! 3) with (take 3 s !! 2).
  rewrite !lookup_take_lt by lia. done.
Qed.

Lemma any_char_elim s r : any_char s = Some r → ∃ w, s = w ++ r ∧ rune_at w r.
Proof.
  destruct s as [|c s]; [done|]. unfold any_char.
  destruct (Byte.eqb c newline) eqn:E; [done|]. apply byte_eqb_false in E.
  pose proof (DecodeRune_size_pos c s) as Hpos.
  pose proof (DecodeRune_size_le_length (c :: s)) as Hle.
  intros [= <-]. exists (take (utf8.DecodeRune_size (c :: s)) (c :: s)).
  rewrite take_drop. split; [done|].
  split; [|split].
  - intros Hnil. apply (f_equal length) in Hnil. rewrite length_take in Hnil.
    simpl in Hnil. lia.
  - destruct (utf8.DecodeRune_size (c :: s)); [lia|]. simpl. congruence.
  - rewrite take_drop, length_take. lia.
Qed.

Lemma any_char_intro w r : rune_at w r → any_char (w ++ r) = Some r.
Proof.
  intros (Hw & Hnl & Hsz). destruct w as [|c w]; [done|].
  unfold any_char. cbn [app]. cbn [app] in Hsz. rewrite Hsz.
  destruct (Byte.eqb c newline) eqn:E.
  - apply byte_eqb_true in E as ->. done.
  - change (c :: w ++ r) with ((c :: w) ++ r). by rewrite drop_app_length.
Qed.

Lemma rune_at_com w r r' : rune_at w (lit_com ++ r) → rune_at w (lit_com ++ r').
Proof.
  intros (Hw & Hnl & Hsz). split; [done|]. split; [done|].
  rewrite <- Hsz, <- DecodeRune_size_take, <- (DecodeRune_size_take (w ++ lit_com ++ r)).
  rewrite !(assoc_L (++)). f_equal.
  assert (4 ≤ length (w ++ lit_com)).
  { rewrite length_app. destruct w; [done|]. simpl. lia. }
  by rewrite (take_app_le (w ++ lit_com) r'), (take_app_le (w ++ lit_com) r).
Qed.

Lemma xkcd_dot_com_elim s r :
  xkcd_dot_com s = Some r →
  ∃ w, s = lit_xkcd ++ w ++ lit_com ++ r ∧ rune_at w (lit_com ++ r).
Proof.
  unfold xkcd_dot_com. intros H.
  apply bind_Some in H as (s1 & H1 & H).
  apply bind_Some in H as (s2 & H2 & H3).
  apply strip_prefix_Some in H1 as ->. apply strip_prefix_Some in H3 as ->.
  apply any_char_elim in H2 as (w & -> & Hw). eauto.
Qed.

Lemma xkcd_dot_com_intro w r :
  rune_at w (lit_com ++ r) → xkcd_dot_com (lit_xkcd ++ w ++ lit_com ++ r) = Some r.
Proof.
  intros Hw. unfold xkcd_dot_com.
  rewrite strip_prefix_app. cbn [mbind option_bind].
  rewrite (any_char_intro _ _ Hw). cbn [mbind option_bind].
  apply strip_prefix_app.
Qed.

Lemma httpExp_match_elim s g r :
  httpExp_match s = Some (g, r) →
  (g = [] ∨ g = lit_imgs) ∧
  ∃ w, s = lit_http ++ g ++ lit_xkcd ++ w ++ lit_com ++ r ∧ rune_at w (lit_com ++ r).
Proof.
  unfold httpExp_match. intros H.
  apply bind_Some in H as (s1 & H1 & H). apply strip_prefix_Some in H1 as ->.
  destruct (s2 ← strip_prefix lit_imgs s1; xkcd_dot_com s2) as [r'|] eqn:E.
  - injection H as <- <-. apply bind_Some in E as (s2 & E1 & E2).
    apply strip_prefix_Some in E1 as ->.
    apply xkcd_dot_com_elim in E2 as (w & -> & Hw). eauto.
  - apply bind_Some in H as (r' & H & [= <- <-]).
    apply xkcd_dot_com_elim in H as (w & -> & Hw). eauto.
Qed.

Lemma httpExp_match_intro g w r :
  g = [] ∨ g = lit_imgs →
  rune_at w (lit_com ++ r) →
  httpExp_match (lit_http ++ g ++ lit_xkcd ++ w ++ lit_com ++ r) = Some (g, r).
Proof.
  intros Hg Hw. unfold httpExp_match.
  rewrite strip_prefix_app. cbn [mbind option_bind].
  destruct Hg as [-> | ->].
  - rewrite app_nil_l.
    replace (s2 ← strip_prefix lit_imgs (lit_xkcd ++ w ++ lit_com ++ r); xkcd_dot_com s2)
      with (@None bytes) by done.
    by rewrite (xkcd_dot_com_intro _ _ Hw).
  - rewrite strip_prefix_app. cbn [mbind option_bind].
    by rewrite (xkcd_dot_com_intro _ _ Hw).
Qed.

Lemma not_elem_of_concrete (x : byte) (l : bytes) :
  forallb (λ c, negb (Byte.eqb c x)) l = true → x ∉ l.
Proof.
  induction l as [|c l IH]; simpl; intros H.
  - apply not_elem_of_nil.
  - apply andb_true_iff in H as [H1 H2]. apply negb_true_iff, byte_eqb_false in H1.
    apply not_elem_of_cons. split; [congruence | auto].
Qed.

(** In a rune the pattern [.] takes, the letter h can only be the whole
    rune. *)
Lemma rune_at_h w rest k2 k3 :
  rune_at w rest → w = k2 ++ byte_h :: k3 → k2 = [] ∧ k3 = [].
Proof.
  intros (Hw & Hnl & Hsz) ->. destruct k2 as [|c k2].
  - split; [done|]. cbn [app] in Hsz.
    rewrite DecodeRune_size_ascii in Hsz by (vm_compute; done).
    destruct k3; [done|]. simpl in Hsz. lia.
  - exfalso.
    destruct (DecodeRune_size_cont (((c :: k2) ++ byte_h :: k3) ++ rest) (length (c :: k2)))
      as (b & Hb & Hge).
    { rewrite Hsz, length_app. simpl. lia. }
    rewrite <- (assoc_L (++)) in Hb.
    rewrite lookup_app_r in Hb by lia.
    rewrite Nat.sub_diag in Hb. injection Hb as <-.
    vm_compute in Hge. by apply Hge.
Qed.

(** A match that starts before a text beginning with ht ends before it. *)
Lemma httpExp_match_within q Y g r :
  q ≠ [] →
  httpExp_match (q ++ byte_h :: byte_t :: Y) = Some (g, r) →
  ∃ k, r = k ++ byte_h :: byte_t :: Y ∧ ∀ Z, httpExp_match (q ++ Z) = Some (g, k ++ Z).
Proof.
  intros Hq H. apply httpExp_match_elim in H as (Hg & w & Heq & Hw).
  assert (Hin : ∀ k, q = (lit_http ++ g ++ lit_xkcd ++ w ++ lit_com) ++ k →
    ∀ Z, httpExp_match (q ++ Z) = Some (g, k ++ Z)).
  { intros k -> Z. rewrite <- !(assoc_L (++)).
    apply httpExp_match_intro; [done|]. by eapply rune_at_com. }
  replace (lit_http ++ g ++ lit_xkcd ++ w ++ lit_com ++ r)
    with ((lit_http ++ g ++ lit_xkcd ++ w ++ lit_com) ++ r) in Heq
    by (by rewrite <- !(assoc_L (++))).
  apply app_eq_inv in Heq as [(k & Hm & Hr)|(k & Hm & Hr)].
  { (* the match is a prefix of the text before *)
    exists k. split; [done|]. by apply Hin. }
  (* the text before is a prefix of the match *)
  destruct k as [|c k'].
  { rewrite app_nil_r in Hm. rewrite app_nil_l in Hr. subst r.
    exists []. split; [done|]. apply Hin. by rewrite app_nil_r. }
  exfalso. cbn [app] in Hr. injection Hr as <- Hr.
  assert (Hk' : k' = [] ∨ ∃ k'', k' = byte_t :: k'').
  { destruct k' as [|c' k'']; [by left|]. right. injection Hr as <- _. eauto. }
  replace (lit_http ++ g ++ lit_xkcd ++ w ++ lit_com)
    with ((lit_http ++ g ++ lit_xkcd) ++ w ++ lit_com) in Hm
    by (by rewrite <- !(assoc_L (++))).
  destruct q as [|c q']; [done|].
  assert (HL : byte_h ∉ tail (lit_http ++ g ++ lit_xkcd)).
  { by destruct Hg as [-> | ->]; apply not_elem_of_concrete. }
  assert (Hcom : byte_h ∉ lit_com) by (by apply not_elem_of_concrete).
  apply app_eq_inv in Hm as [(k2 & Hm1 & Hm2)|(k2 & Hm1 & Hm2)].
  - (* the literal part reaches the h *)
    destruct k2 as [|c2 k2].
    + rewrite app_nil_l in Hm2. destruct w as [|c3 w']; [by destruct Hw|].
      cbn [app] in Hm2. injection Hm2 as <- Hm2.
      destruct (rune_at_h _ _ [] w' Hw eq_refl) as [_ ->].
      rewrite app_nil_l in Hm2. subst k'.
      destruct Hk' as [?|(? & ?)]; discriminate.
    + cbn [app] in Hm2. injection Hm2 as <- Hm2.
      apply HL. rewrite Hm1. cbn [app tail].
      apply elem_of_app. right. apply list_elem_of_here.
  - (* the h lies in the rune or in com *)
    apply app_eq_inv in Hm2 as [(k3 & Hw1 & Hw2)|(k3 & Hw1 & Hw2)].
    + destruct k3 as [|c3 k3].
      { rewrite app_nil_l in Hw2. apply Hcom. rewrite <- Hw2. apply list_elem_of_here. }
      cbn [app] in Hw2. injection Hw2 as <- Hw2.
      destruct (rune_at_h _ _ _ _ Hw Hw1) as [-> ->].
      rewrite app_nil_l in Hw2. subst k'.
      destruct Hk' as [?|(? & ?)]; discriminate.
    + apply Hcom. rewrite Hw2. apply elem_of_app. right. apply list_elem_of_here.
Qed.

Lemma httpExp_find_unfold s :
  httpExp_find s =
  match httpExp_match s with
  | Some (g, rest) => Some ([], g, rest)
  | None =>
    match s with
    | [] => None
    | c :: s' =>
      match httpExp_find s' with
      | Some (pre, g, rest) => Some (c :: pre, g, rest)
      | None => None
      end
    end
  end.
Proof. by destruct s. Qed.

(** What [httpExp_find] found: the text splits at the match, and no match
    starts in the text before it, also when what follows is replaced by a
    text beginning with ht that holds no match. *)
Lemma httpExp_find_Some s pre g rest :
  httpExp_find s = Some (pre, g, rest) →
  ∃ M, s = pre ++ M ∧ httpExp_match M = Some (g, rest) ∧
  ∀ Y, httpExp_find (byte_h :: byte_t :: Y) = None →
       httpExp_find (pre ++ byte_h :: byte_t :: Y) = None.
Proof.
  revert pre. induction s as [|c s IH]; intros pre; rewrite httpExp_find_unfold.
  - done.
  - destruct (httpExp_match (c :: s)) as [[g' r']|] eqn:E.
    + intros [= <- <- <-]. exists (c :: s). done.
    + destruct (httpExp_find s) as [[[pre' g'] r']|] eqn:F; [|done].
      intros [= <- <- <-]. destruct (IH _ eq_refl) as (M & -> & HM & IH').
      exists M. split; [done|]. split; [done|]. intros Y HY.
      rewrite httpExp_find_unfold. cbn [app].
      destruct (httpExp_match (c :: pre' ++ byte_h :: byte_t :: Y)) as [[g2 r2]|] eqn:E2.
      * apply (httpExp_match_within (c :: pre')) in E2 as (k & _ & Hk); [|done].
        cbn [app] in Hk. by rewrite Hk in E.
      * by rewrite IH'.
Qed.

(** No match starts inside the replacement. *)
Lemma httpExp_find_replacement g X :
  g = [] ∨ g = lit_imgs →
  httpExp_find X = None → httpExp_find (httpsReplacement g ++ X) = None.
Proof.
  intros [-> | ->] HX; cbn; by rewrite HX.
Qed.

Lemma ReplaceAll_eq s :
  ReplaceAll s =
  match httpExp_find s with
  | None => s
  | Some (pre, g, rest) => pre ++ httpsReplacement g ++ ReplaceAll rest
  end.
Proof.
  funelim (ReplaceAll s).
  - match goal with H : httpExp_find _ = Some _ |- _ => by rewrite H end.
  - match goal with H : httpExp_find _ = None |- _ => by rewrite H end.
Qed.

(** After the rewrite no match is left. *)
Lemma ReplaceAll_no_match s : httpExp_find (ReplaceAll s) = None.
Proof.
  remember (length s) as n eqn:Hn. revert s Hn.
  induction (lt_wf n) as [n _ IH]. intros s ->.
  rewrite ReplaceAll_eq.
  destruct (httpExp_find s) as [[[pre g] rest]|] eqn:E; [|done].
  pose proof (httpExp_find_length _ _ _ _ E) as Hlen.
  apply httpExp_find_Some in E as (M & -> & HM & Hpre).
  apply httpExp_match_elim in HM as [Hg _].
  assert (Hrest : httpExp_find (ReplaceAll rest) = None).
  { by apply (IH (length rest)). }
  pose proof (httpExp_find_replacement g _ Hg Hrest) as Hrep.
  destruct Hg as [-> | ->]; apply Hpre, Hrep.
Qed.

Lemma ReplaceAll_fixed s : httpExp_find s = None → ReplaceAll s = s.
Proof. intros H. rewrite ReplaceAll_eq. by rewrite H. Qed.

Lemma ReplaceAll_idempotent s : ReplaceAll (ReplaceAll s) = ReplaceAll s.
Proof. apply ReplaceAll_fixed, ReplaceAll_no_match. Qed.

Lemma secure_only_no_match s : secure_only s → httpExp_find s = None.
Proof.
  induction s as [|c s IH]; intros Hs; rewrite httpExp_find_unfold.
  - done.
  - destruct (httpExp_match (c :: s)) as [[g r]|] eqn:E.
    + apply httpExp_match_elim in E as (_ & w & Heq & _).
      exfalso. apply (Hs [] (g ++ lit_xkcd ++ w ++ lit_com ++ r)).
      by rewrite app_nil_l.
    + rewrite IH; [done|]. intros pre post Heq.
      apply (Hs (c :: pre) post). cbn [app]. by f_equal.
Qed.


(** ** Runs *)

Lemma run_bind {W A B} (h : Handler W) (p : Prog A) (f : A → Prog B) w :
  run h (x ← p; f x) w =
  let '(a, w1, tr1) := run h p w in
  let '(b, w2, tr2) := run h (f a) w1 in
  (b, w2, tr1 ++ tr2).
Proof.
  unfold mbind, Prog_bind. revert w. induction p as [a|X op k IH]; intros w; simpl.
  - by destruct (run h (f a) w) as [[b w2] tr2].
  - destruct (h X op w) as [x w1]. rewrite IH.
    destruct (run h (k x) w1) as [[a w2] tr1].
    by destruct (run h (f a) w2) as [[b w3] tr2].
Qed.

Lemma run_call {W X} (h : Handler W) (op : Op X) w :
  run h (call op) w = let '(x, w1) := h X op w in (x, w1, [Ev op x]).
Proof. simpl. by destruct (h X op w). Qed.

(** In the environment with a clock, a run that makes no write to the
    cache leaves the store as it was. *)
Lemma world_store_frame {A} (p : Prog A) w r w' tr :
  run world p w = (r, w', tr) →
  existsb is_cache_write tr = false → store w' = store w.
Proof.
  revert w r w' tr. induction p as [a|X op k IH]; intros w r w' tr; simpl.
  - by intros [= <- <- <-].
  - destruct (world X op w) as [x w1] eqn:E.
    destruct (run world (k x) w1) as [[a w2] tr1] eqn:R.
    intros [= <- <- <-] Htr. cbn in Htr. apply orb_false_iff in Htr as [Hop Htr].
    rewrite (IH _ _ _ _ _ R Htr).
    destruct op; cbn in E; try discriminate; by injection E as <- <-.
Qed.

(** In the environment with a clock, a run changes neither the clock nor
    the state of the service. *)
Lemma world_clock_frame {A} (p : Prog A) w r w' tr :
  run world p w = (r, w', tr) →
  now w' = now w ∧ memcache_down w' = memcache_down w.
Proof.
  revert w r w' tr. induction p as [a|X op k IH]; intros w r w' tr; simpl.
  - by intros [= <- <- <-].
  - destruct (world X op w) as [x w1] eqn:E.
    destruct (run world (k x) w1) as [[a w2] tr1] eqn:R.
    intros [= <- <- <-]. destruct (IH _ _ _ _ _ R) as [-> ->].
    destruct op; cbn in E; try (by injection E as <- <-).
    unfold world_Set in E. destruct (memcache_down w) eqn:D; by injection E as <- <-.
Qed.

(** ** The handlers *)

Section Handlers.

Variable xml_Marshal : Feed → bytes + error.
Variable xml_Unmarshal : bytes → Feed + error.
Variable html_UnescapeString : bytes → bytes.
Variable mainTemplate_Execute : list pageEntry → bytes * option error.

Let fetch := getUpstreamAtom xml_Unmarshal.
Let caching := cachingGetUpstreamAtom xml_Marshal xml_Unmarshal.

(** The fetcher asks upstream first, and never writes to the cache. *)
Lemma run_fetch_trace {W} (h : Handler W) w r w' tr :
  run h fetch w = (r, w', tr) →
  (∃ x tr', tr = Ev (client_Get upstreamURL) x :: tr') ∧
  existsb is_cache_write tr = false ∧
  existsb (is_failed_lookup atomKey) tr = false ∧
  (existsb is_bad_status tr = true → r = inr errNotOK).
Proof.
  unfold fetch, getUpstreamAtom. cbn.
  destruct (h _ (client_Get upstreamURL) w) as [[resp|err] w1] eqn:E1; cbn.
  - destruct (decide (StatusCode resp ≠ StatusOK)) as [Hs|Hs]; cbn.
    + intros [= <- <- <-]. split; [eauto|]. cbn. rewrite bool_decide_true by done. done.
    + destruct (h _ ioutil_ReadAll w1) as [[b|err] w2] eqn:E2; cbn.
      * destruct (xml_Unmarshal (ReplaceAll b)) as [feed|err]; cbn;
          destruct (h _ Body_Close w2) as [[] w3]; cbn;
          intros [= <- <- <-]; (split; [eauto|]); cbn;
          rewrite bool_decide_false by done; done.
      * destruct (h _ Body_Close w2) as [[] w3]; cbn.
        intros [= <- <- <-]. split; [eauto|]. cbn.
        rewrite bool_decide_false by done. done.
  - intros [= <- <- <-]. split; [eauto|]. done.
Qed.

(** How the orchestrator runs: the lookup, then either the hit path or the
    log entry, the fetcher and, on a feed that serializes, the write. *)
Lemma run_caching {W} (h : Handler W) w :
  run h caching w =
  let '(r, w1) := h _ (memcache_Get atomKey) w in
  match r with
  | inr e =>
    let '(_, w2) := h _ (ctx_Infof "making request to xkcd.com") w1 in
    let '(rf, w3, trf) := run h fetch w2 in
    let pre := Ev (memcache_Get atomKey) (inr e)
               :: Ev (ctx_Infof "making request to xkcd.com") () :: trf in
    match rf with
    | inr err => (inr err, w3, pre)
    | inl feed =>
      match xml_Marshal feed with
      | inl b =>
        let '(ans, w4) := h _ (memcache_Set (atomItem b)) w3 in
        (inl feed, w4, pre ++ [Ev (memcache_Set (atomItem b)) ans])
      | inr _ => (inl feed, w3, pre)
      end
    end
  | inl item =>
    let '(_, w2) := h _ (ctx_Infof "found feed in cache") w1 in
    let pre := [Ev (memcache_Get atomKey) (inl item);
                Ev (ctx_Infof "found feed in cache") ()] in
    match xml_Unmarshal (Value item) with
    | inr err => (inr (errUnmarshalCached err), w2, pre)
    | inl feed => (inl feed, w2, pre)
    end
  end.
Proof.
  unfold caching, cachingGetUpstreamAtom.
  rewrite run_bind, run_call.
  destruct (h _ (memcache_Get atomKey) w) as [[item|e] w1].
  - rewrite run_bind, run_call.
    destruct (h _ (ctx_Infof "found feed in cache") w1) as [[] w2].
    by destruct (xml_Unmarshal (Value item)).
  - rewrite run_bind, run_call.
    destruct (h _ (ctx_Infof "making request to xkcd.com") w1) as [[] w2].
    rewrite run_bind. fold fetch.
    destruct (run h fetch w2) as [[[feed|err] w3] trf]; [|by cbn; rewrite app_nil_r].
    destruct (xml_Marshal feed) as [b|err]; [|by cbn; rewrite app_nil_r].
    rewrite run_bind, run_call.
    by destruct (h _ (memcache_Set (atomItem b)) w3) as [ans w4].
Qed.

Lemma with_entries_id feed : with_entries feed (Feed_Entry feed) = feed.
Proof. by destruct feed. Qed.

(** The loop of [atomHandler] from index [length l1] on. *)
Lemma appendAltTexts_from feed l1 l2 :
  appendAltTexts (seq (length l1) (length l2)) (with_entries feed (l1 ++ l2)) =
  Some (with_entries feed (l1 ++ map captioned l2)).
Proof.
  revert l1. induction l2 as [|e l2 IH]; intros l1; [done|].
  cbn [length seq appendAltTexts]. unfold appendAltText. cbn [Feed_Entry with_entries].
  rewrite list_lookup_middle by done. cbn [mbind option_bind].
  destruct (AltText_total e) as [alt Halt]. rewrite Halt. cbn [mbind option_bind].
  replace (<[length l1:=with_caption e alt]> (l1 ++ e :: l2))
    with ((l1 ++ [captioned e]) ++ l2).
  2:{ rewrite <- (Nat.add_0_r (length l1)) at 1. rewrite insert_app_r.
      unfold captioned. rewrite Halt. cbn. by rewrite <- (assoc_L (++)). }
  specialize (IH (l1 ++ [captioned e])).
  rewrite length_app, Nat.add_1_r in IH.
  change (with_entries (with_entries feed (l1 ++ e :: l2)) ((l1 ++ [captioned e]) ++ l2))
    with (with_entries feed ((l1 ++ [captioned e]) ++ l2)).
  rewrite IH. by rewrite <- (assoc_L (++)).
Qed.

Lemma appendAltTexts_all feed :
  appendAltTexts (seq 0 (length (Feed_Entry feed))) feed =
  Some (with_entries feed (map captioned (Feed_Entry feed))).
Proof.
  pose proof (appendAltTexts_from feed [] (Feed_Entry feed)) as H.
  by rewrite app_nil_l, with_entries_id in H.
Qed.

(** The loop of [mainHandler] appends one page entry per feed entry, in
    order, and never panics. *)
Lemma pageEntries_from feed l1 l2 acc :
  Feed_Entry feed = l1 ++ l2 →
  ∃ entries, pageEntries html_UnescapeString (seq (length l1) (length l2)) feed acc
             = Some entries.
Proof.
  revert l1 acc. induction l2 as [|e l2 IH]; intros l1 acc Hf; [by eexists|].
  cbn [length seq pageEntries]. unfold appendPageEntry. rewrite Hf.
  rewrite list_lookup_middle by done. cbn [mbind option_bind].
  destruct (AltText_total e) as [alt Halt]. rewrite Halt. cbn [mbind option_bind].
  specialize (IH (l1 ++ [e])).
  rewrite length_app, Nat.add_1_r in IH. apply IH.
  by rewrite <- (assoc_L (++)).
Qed.

Lemma pageEntries_all feed :
  ∃ entries,
    pageEntries html_UnescapeString (seq 0 (length (Feed_Entry feed))) feed [] = Some entries.
Proof. by apply (pageEntries_from feed [] (Feed_Entry feed)). Qed.

(** After a lookup that succeeded the orchestrator returns what the codec
    reads from the item and makes no upstream request. *)
Lemma run_caching_hit {W} (h : Handler W) w item w1 r w' tr :
  h _ (memcache_Get atomKey) w = (inl item, w1) →
  run h caching w = (r, w', tr) →
  r = match xml_Unmarshal (Value item) with
      | inl f => inl f
      | inr err => inr (errUnmarshalCached err)
      end ∧
  existsb is_fetch tr = false.
Proof.
  intros HG. rewrite run_caching, HG.
  destruct (h _ (ctx_Infof "found feed in cache") w1) as [[] w2].
  by destruct (xml_Unmarshal (Value item)); intros [= <- <- <-].
Qed.

(** After a lookup that failed the orchestrator makes an upstream
    request. *)
Lemma run_caching_miss {W} (h : Handler W) w e w1 r w' tr :
  h _ (memcache_Get atomKey) w = (inr e, w1) →
  run h caching w = (r, w', tr) →
  existsb is_fetch tr = true.
Proof.
  intros HG. rewrite run_caching, HG.
  destruct (h _ (ctx_Infof "making request to xkcd.com") w1) as [[] w2].
  destruct (run h fetch w2) as [[rf w3] trf] eqn:HF.
  destruct (run_fetch_trace _ _ _ _ _ HF) as ((x & tr0 & ->) & _).
  destruct rf as [f|err];
    [destruct (xml_Marshal f); [destruct (h _ (memcache_Set _) w3)|]|];
    by intros [= <- <- <-].
Qed.

(** * The claims *)

(** C2. On a cache miss, an upstream answer whose status is not the success
    status makes the orchestrator return the error of the status check, and
    no write to the cache is made: in the environment with a clock the
    entry under the key is the one that was there. *)
Theorem bad_status_is_returned_and_not_cached :
  (∀ W (h : Handler W) w r w' tr,
     run h caching w = (r, w', tr) →
     existsb (is_failed_lookup atomKey) tr = true →
     existsb is_bad_status tr = true →
     r = inr errNotOK ∧ existsb is_cache_write tr = false) ∧
  (∀ (w : World) r w' tr,
     run world caching w = (r, w', tr) →
     existsb (is_failed_lookup atomKey) tr = true →
     existsb is_bad_status tr = true →
     r = inr errNotOK ∧ store w' = store w).
Proof.
  assert (Hgen : ∀ W (h : Handler W) w r w' tr,
     run h caching w = (r, w', tr) →
     existsb (is_failed_lookup atomKey) tr = true →
     existsb is_bad_status tr = true →
     r = inr errNotOK ∧ existsb is_cache_write tr = false).
  { intros W h w r w' tr. rewrite run_caching.
    destruct (h _ (memcache_Get atomKey) w) as [[item|e] w1] eqn:E1.
    - destruct (h _ (ctx_Infof "found feed in cache") w1) as [[] w2].
      by destruct (xml_Unmarshal (Value item)); intros [= <- <- <-].
    - destruct (h _ (ctx_Infof "making request to xkcd.com") w1) as [[] w2] eqn:E2.
      destruct (run h fetch w2) as [[rf w3] trf] eqn:E3.
      destruct (run_fetch_trace _ _ _ _ _ E3) as (_ & Hw & Hl & Hb).
      destruct rf as [feed|err].
      + destruct (xml_Marshal feed) as [b|err'].
        * destruct (h _ (memcache_Set (atomItem b)) w3) as [ans w4].
          intros [= <- <- <-] _ Hbad. exfalso.
          cbn in Hbad. rewrite existsb_app in Hbad. cbn in Hbad.
          rewrite !orb_false_r in Hbad. by specialize (Hb Hbad).
        * intros [= <- <- <-] _ Hbad. exfalso. by specialize (Hb Hbad).
      + intros [= <- <- <-] _ Hbad. cbn in Hbad. specialize (Hb Hbad).
        done. }
  split.
  - intros W h w r w' tr Hrun Hmiss Hbad.
    by apply (Hgen _ h w r w' tr).
  - intros w r w' tr Hrun Hmiss Hbad.
    destruct (Hgen _ _ _ _ _ _ Hrun Hmiss Hbad) as [? ?].
    split; [done|]. by eapply world_store_frame.
Qed.

(** C3. When the lookup succeeds and the stored bytes do not deserialize,
    the orchestrator fails with the error of the cached feed, and makes no
    upstream request. *)
Theorem corrupt_cache_entry_is_an_error {W} (h : Handler W) w item w1 err :
  h _ (memcache_Get atomKey) w = (inl item, w1) →
  xml_Unmarshal (Value item) = inr err →
  ∃ w' tr, run h caching w = (inr (errUnmarshalCached err), w', tr) ∧
           existsb is_fetch tr = false.
Proof.
  intros HG HU. rewrite run_caching, HG.
  destruct (h _ (ctx_Infof "found feed in cache") w1) as [[] w2].
  rewrite HU. eauto.
Qed.

(** C5, as the code has it.  In the environment with a clock, a run of the
    orchestrator that fetched a feed and stored its serialization leaves it
    under the key with a deadline 5 minutes later.  A later request that
    finds that entry under the key, before the deadline and while the
    service answers, returns what the codec reads from the stored bytes (a
    feed, or the error of the cached feed) and makes no upstream request.  A
    request made at the deadline or later makes an upstream request, and so
    does any request whose lookup fails because the service is down. *)
Theorem cached_feed_is_served_until_expiry (w : World) feed b w1 tr1 :
  memcache_down w = None →
  run world caching w = (inl feed, w1, tr1) →
  existsb is_cache_write tr1 = true →
  xml_Marshal feed = inl b →
  store w1 !! atomKey = Some (b, Some (now w + 5 * Minute)%Z) ∧
  ∀ (w2 : World) r2 w2' tr2,
    store w2 !! atomKey = store w1 !! atomKey →
    run world caching w2 = (r2, w2', tr2) →
    ((now w2 < now w + 5 * Minute)%Z → memcache_down w2 = None →
       r2 = match xml_Unmarshal b with
            | inl f => inl f
            | inr err => inr (errUnmarshalCached err)
            end ∧
       existsb is_fetch tr2 = false) ∧
    ((now w + 5 * Minute ≤ now w2)%Z → existsb is_fetch tr2 = true) ∧
    (memcache_down w2 ≠ None → existsb is_fetch tr2 = true).
Proof.
  intros Hup Hrun1 Hwrite HM.
  rewrite run_caching in Hrun1. cbn [world] in Hrun1.
  destruct (world_Get atomKey w) as [item|e] eqn:HG.
  { destruct (xml_Unmarshal (Value item)); inversion Hrun1; subst; done. }
  destruct (run world fetch (set_log (log w ++ ["making request to xkcd.com"]) w))
    as [[rf w3] trf] eqn:HF.
  destruct (run_fetch_trace _ _ _ _ _ HF) as (_ & Hnw & _).
  destruct (world_clock_frame _ _ _ _ _ HF) as [Hnow Hdown].
  pose proof (world_store_frame _ _ _ _ _ HF Hnw) as Hstore.
  cbn in Hnow, Hdown, Hstore.
  destruct rf as [feed'|err]; [|done].
  destruct (xml_Marshal feed') as [b'|err] eqn:HM';
    [|by inversion Hrun1; subst; cbn in Hwrite; rewrite Hnw in Hwrite].
  unfold world_Set in Hrun1. rewrite Hdown, Hup in Hrun1.
  rewrite bool_decide_false in Hrun1 by done.
  inversion Hrun1; subst; clear Hrun1. rewrite HM in HM'. injection HM' as <-.
  match goal with
  | |- ?entry = _ ∧ _ =>
    assert (Hentry : entry = Some (b, Some (now w + 5 * Minute)%Z))
  end.
  { cbn. by rewrite lookup_insert_eq, Hnow. }
  split; [exact Hentry|].
  intros w2 r2 w2' tr2 Hsame Hrun2. rewrite Hentry in Hsame.
  split; [|split].
  - intros Hlt Hup2.
    apply (run_caching_hit _ _ {| Key := atomKey; Value := b; Expiration := 0 |} w2 _ _ _)
      in Hrun2; [done|].
    cbn [world]. unfold world_Get. rewrite Hup2, Hsame. cbn [fresh].
    by rewrite bool_decide_true.
  - intros Hge. destruct (world_Get atomKey w2) as [item|e2] eqn:HG2.
    + exfalso. unfold world_Get in HG2. destruct (memcache_down w2); [done|].
      rewrite Hsame in HG2. cbn [fresh] in HG2.
      rewrite bool_decide_false in HG2 by lia. done.
    + apply (run_caching_miss _ _ e2 w2 _ _ _) in Hrun2; [done|].
      cbn [world]. by rewrite HG2.
  - intros Hdown2. destruct (memcache_down w2) as [e2|] eqn:D; [|done].
    apply (run_caching_miss _ _ e2 w2 _ _ _) in Hrun2; [done|].
    cbn [world]. unfold world_Get. by rewrite D.
Qed.

(** C6. When the fetcher returns a feed, the orchestrator returns that feed
    whether or not the feed serializes and whatever the store answers: if
    it does not serialize no write is made, and if it does the answer of
    the one write is dropped. *)
Theorem store_failure_is_absorbed {W} (h : Handler W) w e w1 w2 feed w3 trf :
  h _ (memcache_Get atomKey) w = (inr e, w1) →
  h _ (ctx_Infof "making request to xkcd.com") w1 = ((), w2) →
  run h fetch w2 = (inl feed, w3, trf) →
  ∃ w' tr,
    run h caching w = (inl feed, w', tr) ∧
    (∀ err, xml_Marshal feed = inr err → w' = w3 ∧ existsb is_cache_write tr = false) ∧
    (∀ b, xml_Marshal feed = inl b →
       ∃ ans, h _ (memcache_Set (atomItem b)) w3 = (ans, w') ∧
              last tr = Some (Ev (memcache_Set (atomItem b)) ans)).
Proof.
  intros HG HI HF. rewrite run_caching, HG, HI, HF.
  destruct (run_fetch_trace _ _ _ _ _ HF) as (_ & Hw & _).
  destruct (xml_Marshal feed) as [b|err'].
  - destruct (h _ (memcache_Set (atomItem b)) w3) as [ans w4] eqn:HS.
    eexists _, _. split; [done|]. split; [done|].
    intros b' [= <-]. exists ans. split; [done|].
    apply last_snoc.
  - eexists _, _. split; [done|]. split; [|done].
    intros _ _. split; [done|]. done.
Qed.

(** C8, as the code has it.  The page adapter leaves the feed it received
    as it was.  The republish adapter assigns to the summary body of each
    entry of the feed it received the body, a line feed and the caption, and
    leaves the other fields as they were.  Neither makes a call after the
    orchestrator returned: what they derive goes to the writer and, for the
    page adapter, into new page entries. *)
Theorem adapters_on_the_feed (feed : Feed) :
  (∃ entries out,
     mainHandler_render html_UnescapeString mainTemplate_Execute feed
     = Some (feed, entries, out)) ∧
  (∃ out,
     atomHandler_render xml_Marshal feed
     = Some (with_entries feed (map captioned (Feed_Entry feed)), out)) ∧
  (∀ W (h : Handler W) w,
     (run h (atomHandler xml_Marshal xml_Unmarshal) w).2
     = (run h (cachingGetUpstreamAtom xml_Marshal xml_Unmarshal) w).2 ∧
     (run h (mainHandler xml_Marshal xml_Unmarshal html_UnescapeString
                         mainTemplate_Execute) w).2
     = (run h (cachingGetUpstreamAtom xml_Marshal xml_Unmarshal) w).2).
Proof.
  split; [|split].
  - unfold mainHandler_render. destruct (pageEntries_all feed) as [entries ->].
    cbn [mbind option_bind]. destruct (mainTemplate_Execute entries) as [written [err|]]; eauto.
  - unfold atomHandler_render. rewrite appendAltTexts_all. cbn [mbind option_bind].
    destruct (xml_Marshal _); eauto.
  - intros W h w. unfold atomHandler, mainHandler. rewrite !run_bind.
    destruct (run h (cachingGetUpstreamAtom xml_Marshal xml_Unmarshal) w)
      as [[[f|err] w1] tr]; cbn; by rewrite app_nil_r.
Qed.

(** C9. Whatever error the lookup comes back with, the orchestrator logs
    the request and runs the fetcher, and what it returns is what the
    fetcher returned: the error of the lookup is not the caller's. *)
Theorem lookup_error_takes_fetch_path {W} (h : Handler W) w e w1 :
  h _ (memcache_Get atomKey) w = (inr e, w1) →
  ∃ w2 rf w3 trf w' tr',
    h _ (ctx_Infof "making request to xkcd.com") w1 = ((), w2) ∧
    run h fetch w2 = (rf, w3, trf) ∧
    run h caching w =
      (rf, w', Ev (memcache_Get atomKey) (inr e)
               :: Ev (ctx_Infof "making request to xkcd.com") () :: trf ++ tr') ∧
    existsb is_fetch trf = true.
Proof.
  intros HG. rewrite run_caching, HG.
  destruct (h _ (ctx_Infof "making request to xkcd.com") w1) as [[] w2].
  destruct (run h fetch w2) as [[rf w3] trf] eqn:HF.
  destruct (run_fetch_trace _ _ _ _ _ HF) as ((x & tr0 & ->) & _).
  exists w2, rf, w3. eexists.
  destruct rf as [feed|err].
  - destruct (xml_Marshal feed) as [b|err'].
    + destruct (h _ (memcache_Set (atomItem b)) w3) as [ans w4].
      exists w4, [Ev (memcache_Set (atomItem b)) ans]. done.
    + exists w3, []. by rewrite app_nil_r.
  - exists w3, []. by rewrite app_nil_r.
Qed.

End Handlers.

(** C4. Caption extraction returns the value of the first occurrence of the
    pattern alt= followed by a quoted value without a quote in it, whatever
    follows that occurrence (further occurrences included); it returns the
    empty string when the body holds no occurrence; every body is in one of
    the two cases, so the extraction never panics.  The caption is computed
    from the summary body as it is stored, and from nothing else; the
    extraction yields the caption alone, the entry is left as it was. *)
Theorem AltText_first_occurrence (e : Entry) :
  (∀ pre v post,
     first_alt_occurrence (Body (Entry_Summary e)) pre v post → AltText e = Some v) ∧
  ((∀ pre v post, ¬ alt_occurrence (Body (Entry_Summary e)) pre v post) →
     AltText e = Some []) ∧
  ((∃ pre v post, first_alt_occurrence (Body (Entry_Summary e)) pre v post) ∨
   (∀ pre v post, ¬ alt_occurrence (Body (Entry_Summary e)) pre v post)) ∧
  (∀ e', Body (Entry_Summary e') = Body (Entry_Summary e) → AltText e' = AltText e).
Proof.
  split; [|split; [|split]].
  - intros pre v post H. by apply AltText_of_match, (altExp_FindString_first _ pre v post).
  - intros H. by apply AltText_of_no_match, altExp_FindString_none.
  - apply alt_occurrence_cases.
  - intros e' He. unfold AltText. by rewrite He.
Qed.

Example AltText_spec_body : AltText (sample_entry spec_body) = Some (lit "bar").
Proof. reflexivity. Qed.

(** C7. The rewrite of the links is idempotent: a text with no reference
    of the insecure scheme is left as it is, rewriting twice is rewriting
    once for every text, and a reference is rewritten the same way with and
    without the subdomain imgs, both results being left as they are by a
    second rewrite. *)
Theorem ReplaceAll_is_idempotent :
  (∀ s, secure_only s → ReplaceAll s = s) ∧
  (∀ s, ReplaceAll (ReplaceAll s) = ReplaceAll s) ∧
  (∀ g, g = [] ∨ g = lit_imgs →
        ReplaceAll (lit_http ++ g ++ lit_xkcd_com) = lit_https ++ g ++ lit_xkcd_com ∧
        ReplaceAll (lit_https ++ g ++ lit_xkcd_com) = lit_https ++ g ++ lit_xkcd_com).
Proof.
  split; [|split].
  - intros s Hs. by apply ReplaceAll_fixed, secure_only_no_match.
  - apply ReplaceAll_idempotent.
  - intros g [-> | ->]; split; reflexivity.
Qed.

(** C10. The caption is the empty string when the body holds no occurrence
    of the pattern, and also when its first occurrence has the empty value:
    the two cases give the same result, as on the two sample bodies. *)
Theorem AltText_empty_is_ambiguous :
  (∀ e, (∀ pre v post, ¬ alt_occurrence (Body (Entry_Summary e)) pre v post) →
        AltText e = Some []) ∧
  (∀ e pre post, first_alt_occurrence (Body (Entry_Summary e)) pre [] post →
        AltText e = Some []) ∧
  (∃ e1 e2,
     (∀ pre v post, ¬ alt_occurrence (Body (Entry_Summary e1)) pre v post) ∧
     (∃ pre post, first_alt_occurrence (Body (Entry_Summary e2)) pre [] post) ∧
     AltText e1 = AltText e2).
Proof.
  split; [|split].
  - intros e H. by apply AltText_of_no_match, altExp_FindString_none.
  - intros e pre post H. by apply AltText_of_match, (altExp_FindString_first _ pre [] post).
  - exists (sample_entry (lit "no caption")), (sample_entry (alt_open ++ [dquote])).
    split; [|split].
    + intros pre v post [Heq _]. cbn in Heq.
      do 6 (destruct pre as [|? pre]; [discriminate Heq|]).
      do 5 (destruct pre as [|? pre]; [discriminate Heq|]). discriminate Heq.
    + exists [], []. split; [split; [reflexivity | apply not_elem_of_nil]|].
      intros; simpl; lia.
    + reflexivity.
Qed.

(** * Instances *)

Lemma AltText_first_occurrence_witness :
  AltText (sample_entry spec_body) = Some (lit "bar").
Proof.
  apply (proj1 (AltText_first_occurrence (sample_entry spec_body))
               (lit "foo <img ") (lit "bar")
               (lit " src=" ++ [dquote] ++ lit "x" ++ [dquote] ++ lit "> baz")).
  split.
  - split; [reflexivity|]. by apply not_elem_of_concrete.
  - intros pre' v' post' [Heq _]. cbn in Heq.
    do 9 (destruct pre' as [|? pre']; [discriminate Heq|]).
    simpl. lia.
Defined.

Lemma ReplaceAll_is_idempotent_witness :
  ReplaceAll (lit "see https://imgs.xkcd.com/a.png") = lit "see https://imgs.xkcd.com/a.png".
Proof.
  apply (proj1 ReplaceAll_is_idempotent).
  intros pre post Heq. cbn in Heq.
  do 24 (destruct pre as [|? pre]; [discriminate Heq|]).
  do 8 (destruct pre as [|? pre]; [discriminate Heq|]). discriminate Heq.
Defined.

Lemma AltText_empty_is_ambiguous_witness :
  AltText (sample_entry (alt_open ++ [dquote])) = Some [].
Proof.
  apply (proj1 (proj2 AltText_empty_is_ambiguous) _ [] []).
  split; [split; [reflexivity | apply not_elem_of_nil]|].
  intros; simpl; lia.
Defined.

Lemma bad_status_is_returned_and_not_cached_witness :
  ∃ r w' tr,
    run world (cachingGetUpstreamAtom sample_Marshal sample_Unmarshal)
        (sample_world 404 []) = (r, w', tr) ∧
    (r = inr errNotOK ∧ existsb is_cache_write tr = false) ∧
    (r = inr errNotOK ∧ store w' = store (sample_world 404 [])).
Proof.
  eexists _, _, _. split; [reflexivity|]. split.
  - apply (proj1 (bad_status_is_returned_and_not_cached sample_Marshal sample_Unmarshal)
                 World world (sample_world 404 []) _ _ _ eq_refl); reflexivity.
  - apply (proj2 (bad_status_is_returned_and_not_cached sample_Marshal sample_Unmarshal)
                 (sample_world 404 []) _ _ _ eq_refl); reflexivity.
Defined.

Lemma corrupt_cache_entry_is_an_error_witness :
  ∃ w' tr,
    run world (cachingGetUpstreamAtom sample_Marshal sample_Unmarshal)
        (sample_cached [] (sample_world 200 (lit "T")))
    = (inr (errUnmarshalCached "EOF"), w', tr) ∧
    existsb is_fetch tr = false.
Proof.
  apply (corrupt_cache_entry_is_an_error sample_Marshal sample_Unmarshal world
           (sample_cached [] (sample_world 200 (lit "T")))
           {| Key := atomKey; Value := []; Expiration := 0 |}
           (sample_cached [] (sample_world 200 (lit "T"))) "EOF");
    reflexivity.
Defined.

Lemma cached_feed_is_served_until_expiry_witness :
  ((run world (cachingGetUpstreamAtom sample_Marshal sample_Unmarshal)
        (at_time (4 * Minute)
           (run world (cachingGetUpstreamAtom sample_Marshal sample_Unmarshal)
                (sample_world 200 (lit "T"))).1.2)).1.1
   = inl (sample_feed (lit "T")) ∧
   existsb is_fetch
     (run world (cachingGetUpstreamAtom sample_Marshal sample_Unmarshal)
          (at_time (4 * Minute)
             (run world (cachingGetUpstreamAtom sample_Marshal sample_Unmarshal)
                  (sample_world 200 (lit "T"))).1.2)).2 = false) ∧
  existsb is_fetch
    (run world (cachingGetUpstreamAtom sample_Marshal sample_Unmarshal)
         (at_time (5 * Minute)
            (run world (cachingGetUpstreamAtom sample_Marshal sample_Unmarshal)
                 (sample_world 200 (lit "T"))).1.2)).2 = true.
Proof.
  set (R := run world (cachingGetUpstreamAtom sample_Marshal sample_Unmarshal)
                (sample_world 200 (lit "T"))).
  destruct (cached_feed_is_served_until_expiry sample_Marshal sample_Unmarshal
              (sample_world 200 (lit "T")) (sample_feed (lit "T")) (lit "T")
              R.1.2 R.2 eq_refl eq_refl eq_refl eq_refl) as [_ H].
  split.
  - destruct (H (at_time (4 * Minute) R.1.2) _ _ _ eq_refl eq_refl) as (H1 & _ & _).
    exact (H1 eq_refl eq_refl).
  - destruct (H (at_time (5 * Minute) R.1.2) _ _ _ eq_refl eq_refl) as (_ & H1 & _).
    apply H1. vm_compute. discriminate.
Defined.

(** C5 as stated fails: 4 minutes after a run that stored the feed, a
    request made while the memcache service is down fetches upstream. *)
Lemma fetch_within_five_minutes_of_a_store :
  ∃ w1 tr1 r2 w2 tr2,
    run world (cachingGetUpstreamAtom sample_Marshal sample_Unmarshal)
        (sample_world 200 (lit "T"))
    = (inl (sample_feed (lit "T")), w1, tr1) ∧
    last tr1 = Some (Ev (memcache_Set (atomItem (lit "T"))) None) ∧
    store w1 !! atomKey = Some (lit "T", Some (5 * Minute)%Z) ∧
    run world (cachingGetUpstreamAtom sample_Marshal sample_Unmarshal)
        (sample_outage (at_time (4 * Minute) w1))
    = (r2, w2, tr2) ∧
    existsb is_fetch tr2 = true.
Proof.
  eexists _, _, _, _, _. split; [reflexivity|]. split; [reflexivity|].
  split; [reflexivity|]. split; [reflexivity|]. reflexivity.
Qed.

Lemma store_failure_is_absorbed_witness :
  ∃ w' tr,
    run world (cachingGetUpstreamAtom sample_Marshal sample_Unmarshal)
        (sample_outage (sample_world 200 (lit "T")))
    = (inl (sample_feed (lit "T")), w', tr) ∧
    last tr = Some (Ev (memcache_Set (atomItem (lit "T"))) (Some "memcache: server error"%string)).
Proof.
  destruct (store_failure_is_absorbed sample_Marshal sample_Unmarshal world
              (sample_outage (sample_world 200 (lit "T"))) _ _ _ _ _ _
              eq_refl eq_refl eq_refl) as (w' & tr & Hrun & _ & Hset).
  exists w', tr. split; [exact Hrun|].
  destruct (Hset _ eq_refl) as (ans & Hans & Hlast).
  rewrite Hlast. cbn in Hans. injection Hans as <- _. reflexivity.
Defined.

Lemma lookup_error_takes_fetch_path_witness :
  ∃ w' tr,
    run world (cachingGetUpstreamAtom sample_Marshal sample_Unmarshal)
        (sample_outage (sample_world 200 (lit "T")))
    = (inl (sample_feed (lit "T")), w', tr) ∧ existsb is_fetch tr = true.
Proof.
  destruct (lookup_error_takes_fetch_path sample_Marshal sample_Unmarshal world
              (sample_outage (sample_world 200 (lit "T"))) _ _ eq_refl)
    as (w2 & rf & w3 & trf & w' & tr' & HI & HF & Hrun & Hfetch).
  cbn in HI. injection HI as <-. cbn in HF. injection HF as <- <- <-.
  eexists _, _. split; [exact Hrun|]. reflexivity.
Defined.

(** C8 as stated fails on the republish adapter: it changes the summary
    body of the entry of this feed. *)
Lemma republish_adapter_mutates :
  ∃ feed' out,
    atomHandler_render sample_Marshal sample_feed_with_entry = Some (feed', out) ∧
    Feed_Entry feed' = [with_caption (sample_entry spec_body) (lit "bar")] ∧
    feed' ≠ sample_feed_with_entry.
Proof.
  eexists _, _. split; [reflexivity|]. split; [reflexivity|]. discriminate.
Qed.

(** * Further properties *)

Lemma httpExp_find_None_iff s :
  httpExp_find s = None ↔ ∀ i, httpExp_match (drop i s) = None.
Proof.
  induction s as [|c s IH]; rewrite httpExp_find_unfold.
  - split; [|done]. intros _ i. by rewrite drop_nil.
  - split.
    + destruct (httpExp_match (c :: s)) as [[g r]|] eqn:E; [done|].
      destruct (httpExp_find s) as [[[p g] r]|] eqn:F; [done|].
      intros _ [|i]; [done|]. cbn [drop]. by apply IH.
    + intros H. pose proof (H 0) as H0. cbn [drop] in H0. rewrite H0.
      replace (httpExp_find s) with (@None (bytes * bytes * bytes)); [done|].
      symmetry. apply IH. intros i. apply (H (S i)).
Qed.

Lemma httpExp_match_head c s g r :
  httpExp_match (c :: s) = Some (g, r) → c = byte_h.
Proof.
  intros H. apply httpExp_match_elim in H as (_ & w & Heq & _).
  by injection Heq as ->.
Qed.

Lemma httpExp_find_at pre M g rest :
  byte_h ∉ pre → httpExp_match M = Some (g, rest) →
  httpExp_find (pre ++ M) = Some (pre, g, rest).
Proof.
  intros Hpre HM. induction pre as [|c pre IH].
  - rewrite app_nil_l, httpExp_find_unfold. by rewrite HM.
  - apply not_elem_of_cons in Hpre as [Hc Hpre].
    rewrite httpExp_find_unfold. cbn [app].
    destruct (httpExp_match (c :: pre ++ M)) as [[g' r']|] eqn:E.
    + apply httpExp_match_head in E. congruence.
    + by rewrite IH.
Qed.

(** X1. After the rewrite, no match of [httpExp] begins anywhere in the
    text. *)
Theorem ReplaceAll_leaves_no_match (s : bytes) (i : nat) :
  httpExp_match (drop i (ReplaceAll s)) = None.
Proof. revert i. apply httpExp_find_None_iff, ReplaceAll_no_match. Qed.

(** X2. The rewrite changes a text exactly when the text holds a match of
    [httpExp]. *)
Theorem ReplaceAll_changes_iff_match (s : bytes) :
  ReplaceAll s = s ↔ ∀ i, httpExp_match (drop i s) = None.
Proof.
  rewrite <- httpExp_find_None_iff. split; [|apply ReplaceAll_fixed].
  rewrite ReplaceAll_eq.
  destruct (httpExp_find s) as [[[pre g] rest]|] eqn:E; [|done].
  apply httpExp_find_Some in E as (M & -> & HM & _).
  apply httpExp_match_elim in HM as (Hg & w & -> & _).
  intros H. apply app_inv_head in H. exfalso.
  destruct Hg as [-> | ->]; discriminate H.
Qed.

(** X3. A match that follows a text without the letter h is replaced by the
    secure reference, whatever rune stands at the place of the dot of
    xkcd.com, and the rewrite goes on after the match. *)
Theorem ReplaceAll_rewrites_match (pre g w rest : bytes) :
  byte_h ∉ pre →
  g = [] ∨ g = lit_imgs →
  rune_at w (lit_com ++ rest) →
  ReplaceAll (pre ++ lit_http ++ g ++ lit_xkcd ++ w ++ lit_com ++ rest)
  = pre ++ lit_https ++ g ++ lit_xkcd_com ++ ReplaceAll rest.
Proof.
  intros Hpre Hg Hw. rewrite ReplaceAll_eq.
  rewrite (httpExp_find_at pre _ g rest Hpre (httpExp_match_intro g w rest Hg Hw)).
  unfold httpsReplacement. by rewrite <- !(assoc_L (++)).
Qed.

Lemma ReplaceAll_rewrites_match_witness :
  ReplaceAll (lit "<a " ++ lit_http ++ lit_imgs ++ lit_xkcd ++ lit "/" ++ lit_com ++ lit ">")
  = lit "<a " ++ lit_https ++ lit_imgs ++ lit_xkcd_com ++ ReplaceAll (lit ">").
Proof.
  apply (ReplaceAll_rewrites_match (lit "<a ") lit_imgs (lit "/") (lit ">")).
  - by apply not_elem_of_concrete.
  - by right.
  - split; [done|]. split; [done|]. reflexivity.
Defined.

(** An occurrence in a text followed by a text without a quote lies in
    the text itself. *)
Lemma alt_occurrence_app_inv s t pre v post :
  dquote ∉ t → alt_occurrence (s ++ t) pre v post →
  ∃ post', post = post' ++ t ∧ alt_occurrence s pre v post'.
Proof.
  intros Ht [Heq Hv].
  replace (pre ++ alt_open ++ v ++ dquote :: post)
    with ((pre ++ alt_open ++ v) ++ dquote :: post) in Heq
    by (by rewrite <- !(assoc_L (++))).
  apply app_eq_inv in Heq as [(k & Hs & Hp)|(k & Hs & Hp)].
  - destruct k as [|c k].
    + exfalso. apply Ht. rewrite app_nil_l in Hp. rewrite <- Hp. apply list_elem_of_here.
    + cbn [app] in Hp. injection Hp as <- ->. exists k. split; [done|].
      split; [|done]. rewrite Hs. by rewrite <- !(assoc_L (++)).
  - exfalso. apply Ht. rewrite Hp. apply elem_of_app. right. apply list_elem_of_here.
Qed.

Lemma alt_occurrence_app s t pre v post :
  alt_occurrence s pre v post → alt_occurrence (s ++ t) pre v (post ++ t).
Proof.
  intros [-> Hv]. split; [|done]. by rewrite <- !(assoc_L (++)).
Qed.

Lemma altExp_FindString_app s t :
  dquote ∉ t → altExp_FindString (s ++ t) = altExp_FindString s.
Proof.
  intros Ht. destruct (alt_occurrence_cases s) as [(pre & v & post & Hocc & Hmin)|Hno].
  - rewrite (altExp_FindString_first s pre v post) by done.
    apply (altExp_FindString_first _ pre v (post ++ t)). split.
    + by apply alt_occurrence_app.
    + intros pre' v' post' H'.
      apply alt_occurrence_app_inv in H' as (post'' & _ & H'); [|done].
      by apply (Hmin _ v' post'').
  - rewrite (altExp_FindString_none s) by done.
    apply altExp_FindString_none. intros pre v post H'.
    apply alt_occurrence_app_inv in H' as (post'' & _ & H'); [|done].
    by apply (Hno pre v post'').
Qed.

Lemma AltText_cases e :
  (AltText e = Some [] ∧ altExp_FindString (Body (Entry_Summary e)) = []) ∨
  ∃ pre v post, first_alt_occurrence (Body (Entry_Summary e)) pre v post ∧
                AltText e = Some v.
Proof.
  destruct (alt_occurrence_cases (Body (Entry_Summary e)))
    as [(pre & v & post & H)|H].
  - right. exists pre, v, post. split; [done|].
    by apply AltText_of_match, (altExp_FindString_first _ pre v post).
  - left. apply altExp_FindString_none in H. split; [|done].
    by apply AltText_of_no_match.
Qed.

(** X4. The caption holds no double quote and is a piece of the summary
    body. *)
Theorem AltText_is_quote_free_piece (e : Entry) (alt : bytes) :
  AltText e = Some alt →
  (dquote ∉ alt) ∧ ∃ pre post, Body (Entry_Summary e) = pre ++ alt ++ post.
Proof.
  intros H. destruct (AltText_cases e) as [[H' _]|(pre & v & post & [[Heq Hv] _] & H')];
    rewrite H' in H; injection H as <-.
  - split; [apply not_elem_of_nil|]. by exists [], (Body (Entry_Summary e)).
  - split; [done|]. exists (pre ++ alt_open), (dquote :: post).
    rewrite Heq. by rewrite <- !(assoc_L (++)).
Qed.

Lemma AltText_is_quote_free_piece_witness :
  (dquote ∉ lit "bar") ∧
  ∃ pre post, Body (Entry_Summary (sample_entry spec_body)) = pre ++ lit "bar" ++ post.
Proof.
  apply (AltText_is_quote_free_piece (sample_entry spec_body) (lit "bar")).
  reflexivity.
Defined.

(** X5. Appending the caption to the summary body, as the republish adapter
    does, does not change the caption of the entry: text without a double
    quote added at the end of the body leaves [AltText] as it was. *)
Theorem AltText_after_append (e : Entry) (alt : bytes) :
  AltText e = Some alt → AltText (with_caption e alt) = Some alt.
Proof.
  intros H. pose proof (AltText_cases e) as Hc.
  assert (Hq : dquote ∉ [newline] ++ alt).
  { destruct Hc
      as [[H' _]|(pre & v & post & [[Heq Hv] _] & H')];
      rewrite H' in H; injection H as <-.
    - by apply not_elem_of_concrete.
    - cbn [app]. apply not_elem_of_cons. split; [discriminate|done]. }
  rewrite <- H. unfold AltText. cbn [with_caption Entry_Summary Body].
  by rewrite altExp_FindString_app.
Qed.

Lemma AltText_after_append_witness :
  AltText (with_caption (sample_entry spec_body) (lit "bar")) = Some (lit "bar").
Proof.
  apply (AltText_after_append (sample_entry spec_body) (lit "bar")). reflexivity.
Defined.

Section Further.

Variable xml_Marshal : Feed → bytes + error.
Variable xml_Unmarshal : bytes → Feed + error.
Variable html_UnescapeString : bytes → bytes.
Variable mainTemplate_Execute : list pageEntry → bytes * option error.

Let fetch := getUpstreamAtom xml_Unmarshal.
Let caching := cachingGetUpstreamAtom xml_Marshal xml_Unmarshal.

(** The three ways a run of the fetcher goes. *)
Lemma run_fetch_cases {W} (h : Handler W) w r w' tr :
  run h fetch w = (r, w', tr) →
  (∃ e, tr = [Ev (client_Get upstreamURL) (inr e)] ∧ r = inr e) ∨
  (∃ resp, StatusCode resp ≠ StatusOK ∧
           tr = [Ev (client_Get upstreamURL) (inl resp)] ∧ r = inr errNotOK) ∨
  (∃ resp rb, StatusCode resp = StatusOK ∧
     tr = [Ev (client_Get upstreamURL) (inl resp); Ev ioutil_ReadAll rb; Ev Body_Close ()] ∧
     r = match rb with
         | inr e => inr (errReadBody e)
         | inl b =>
           match xml_Unmarshal (ReplaceAll b) with
           | inl feed => inl feed
           | inr e => inr (errUnmarshalFeed e)
           end
         end).
Proof.
  unfold fetch, getUpstreamAtom. cbn.
  destruct (h _ (client_Get upstreamURL) w) as [[resp|err] w1]; cbn.
  - destruct (decide (StatusCode resp ≠ StatusOK)) as [Hs|Hs]; cbn.
    + intros [= <- <- <-]. right; left. eauto.
    + assert (StatusCode resp = StatusOK) by (by destruct (decide (StatusCode resp = StatusOK))).
      destruct (h _ ioutil_ReadAll w1) as [[b|err] w2]; cbn.
      * destruct (xml_Unmarshal (ReplaceAll b)) as [feed|err] eqn:EU; cbn;
          destruct (h _ Body_Close w2) as [[] w3]; cbn;
          intros [= <- <- <-]; right; right; exists resp, (inl b); by rewrite EU.
      * destruct (h _ Body_Close w2) as [[] w3]; cbn.
        intros [= <- <- <-]. right; right. by exists resp, (inr err).
  - intros [= <- <- <-]. left. eauto.
Qed.

(** X6. The fetcher reads the body exactly when the upstream request was
    answered with the success status, and then closes it exactly once, as
    its last call, also when the read or the parse fails.  After an answer
    with another status it returns the error of the status check, and after
    that or a transport error the body is neither read nor closed. *)
Theorem fetch_reads_and_closes_the_body {W} (h : Handler W) w r w' tr :
  run h fetch w = (r, w', tr) →
  existsb is_body_read tr = existsb is_ok_status tr ∧
  existsb is_body_close tr = existsb is_ok_status tr ∧
  length (List.filter is_body_read tr) = length (List.filter is_body_close tr) ∧
  length (List.filter is_body_close tr) ≤ 1 ∧
  (existsb is_ok_status tr = true → last tr = Some (Ev Body_Close ())) ∧
  (existsb is_ok_status tr = false → ∃ err, r = inr err) ∧
  (existsb is_bad_status tr = true → r = inr errNotOK ∧ length tr = 1).
Proof.
  intros H. apply run_fetch_cases in H
    as [(e & -> & ->)|[(resp & Hs & -> & ->)|(resp & rb & Hs & -> & _)]]; cbn.
  - repeat split; try done; eauto.
  - rewrite bool_decide_false by done. repeat split; try done; eauto.
  - rewrite bool_decide_true by done.
    rewrite bool_decide_false by (by intros Hne; apply Hne).
    repeat split; try done; lia.
Qed.

(** X7. A feed the fetcher returns is what [xml.Unmarshal] reads from the
    rewritten body of an answer with the success status: the rewrite comes
    before the parse, and the bytes parsed hold no match of [httpExp]. *)
Theorem fetch_parses_the_rewritten_body {W} (h : Handler W) w feed w' tr :
  run h fetch w = (inl feed, w', tr) →
  ∃ resp b,
    tr = [Ev (client_Get upstreamURL) (inl resp); Ev ioutil_ReadAll (inl b);
          Ev Body_Close ()] ∧
    StatusCode resp = StatusOK ∧
    xml_Unmarshal (ReplaceAll b) = inl feed ∧
    httpExp_find (ReplaceAll b) = None.
Proof.
  intros H. apply run_fetch_cases in H
    as [(e & _ & [=])|[(resp & _ & _ & [=])|(resp & rb & Hs & -> & Hr)]].
  destruct rb as [b|e]; [|done].
  destruct (xml_Unmarshal (ReplaceAll b)) as [f|e] eqn:EU; [|done].
  injection Hr as ->. exists resp, b. split; [done|]. split; [done|].
  split; [done|]. apply ReplaceAll_no_match.
Qed.

(** X8. When the orchestrator returns an error, whichever it is, it has
    made no write to the cache. *)
Theorem error_means_nothing_cached {W} (h : Handler W) w err w' tr :
  run h caching w = (inr err, w', tr) → existsb is_cache_write tr = false.
Proof.
  unfold caching. rewrite run_caching.
  destruct (h _ (memcache_Get atomKey) w) as [[item|e] w1].
  - destruct (h _ (ctx_Infof "found feed in cache") w1) as [[] w2].
    by destruct (xml_Unmarshal (Value item)); intros [= <- <- <-].
  - destruct (h _ (ctx_Infof "making request to xkcd.com") w1) as [[] w2].
    destruct (run h (getUpstreamAtom xml_Unmarshal) w2) as [[rf w3] trf] eqn:HF.
    destruct (run_fetch_trace _ _ _ _ _ _ HF) as (_ & Hw & _).
    destruct rf as [feed|err'].
    + destruct (xml_Marshal feed); [destruct (h _ (memcache_Set _) w3)|]; done.
    + by intros [= <- <- <-].
Qed.

(** X9. The orchestrator writes to the cache at most once, as its last
    call and after an upstream request; what it stores under the key, for 5
    minutes, is the serialization of the feed it returns. *)
Theorem cache_write_stores_the_returned_feed {W} (h : Handler W) w r w' tr :
  run h caching w = (r, w', tr) →
  length (List.filter is_cache_write tr) ≤ 1 ∧
  (existsb is_cache_write tr = true →
   ∃ feed b ans,
     r = inl feed ∧ xml_Marshal feed = inl b ∧
     last tr = Some (Ev (memcache_Set (atomItem b)) ans) ∧
     Key (atomItem b) = atomKey ∧ Value (atomItem b) = b ∧
     Expiration (atomItem b) = (5 * Minute)%Z ∧
     existsb is_fetch tr = true).
Proof.
  unfold caching. rewrite run_caching.
  destruct (h _ (memcache_Get atomKey) w) as [[item|e] w1].
  - destruct (h _ (ctx_Infof "found feed in cache") w1) as [[] w2].
    destruct (xml_Unmarshal (Value item)); intros [= <- <- <-]; cbn; split; (lia || done).
  - destruct (h _ (ctx_Infof "making request to xkcd.com") w1) as [[] w2].
    destruct (run h (getUpstreamAtom xml_Unmarshal) w2) as [[rf w3] trf] eqn:HF.
    assert (Htrf : List.filter is_cache_write trf = [] ∧ existsb is_cache_write trf = false ∧
                   existsb is_fetch trf = true).
    { apply run_fetch_cases in HF
        as [(e' & -> & _)|[(resp & _ & -> & _)|(resp & rb & _ & -> & _)]]; done. }
    destruct Htrf as (Hf & Hw & Hfetch).
    destruct rf as [feed|err'].
    + destruct (xml_Marshal feed) as [b|err'] eqn:HM.
      * destruct (h _ (memcache_Set (atomItem b)) w3) as [ans w4].
        intros [= <- <- <-]. split.
        { cbn. rewrite List.filter_app, Hf. cbn. lia. }
        intros _. exists feed, b, ans. repeat split; try done.
        { rewrite !app_comm_cons. apply last_snoc. }
        cbn. rewrite existsb_app. cbn. by rewrite Hfetch.
      * intros [= <- <- <-]. cbn. rewrite Hf, Hw. split; [cbn; lia|done].
    + intros [= <- <- <-]. cbn. rewrite Hf, Hw. split; [cbn; lia|done].
Qed.

(** X10. The orchestrator makes an upstream request exactly when the lookup
    at the key failed, and never more than one; after a lookup that
    succeeded it makes no call but the log entry. *)
Theorem fetch_exactly_on_lookup_failure {W} (h : Handler W) w r w' tr :
  run h caching w = (r, w', tr) →
  existsb is_fetch tr = existsb (is_failed_lookup atomKey) tr ∧
  length (List.filter is_fetch tr) ≤ 1 ∧
  (existsb (is_failed_lookup atomKey) tr = false →
   length tr = 2 ∧ existsb is_cache_write tr = false).
Proof.
  unfold caching. rewrite run_caching.
  destruct (h _ (memcache_Get atomKey) w) as [[item|e] w1].
  - destruct (h _ (ctx_Infof "found feed in cache") w1) as [[] w2].
    destruct (xml_Unmarshal (Value item)); intros [= <- <- <-]; cbn;
      (split; [done|split; [lia|done]]).
  - destruct (h _ (ctx_Infof "making request to xkcd.com") w1) as [[] w2].
    destruct (run h (getUpstreamAtom xml_Unmarshal) w2) as [[rf w3] trf] eqn:HF.
    assert (Htrf : length (List.filter is_fetch trf) = 1 ∧ existsb is_fetch trf = true).
    { apply run_fetch_cases in HF
        as [(e' & -> & _)|[(resp & _ & -> & _)|(resp & rb & _ & -> & _)]]; done. }
    destruct Htrf as (Hf & Hfetch).
    destruct rf as [feed|err'];
      [destruct (xml_Marshal feed) as [b|err'];
       [destruct (h _ (memcache_Set (atomItem b)) w3) as [ans w4]|]|];
      intros [= <- <- <-]; cbn; rewrite ?List.filter_app, ?existsb_app; cbn;
      rewrite ?length_app, Hf, Hfetch; cbn; (split; [done|split; [lia|done]]).
Qed.

(** X11. When the orchestrator returns an error, both handlers answer with
    the status 500 and the text of the error after a fixed prefix, hold no
    feed, and make no call of their own. *)
Theorem handlers_report_the_error {W} (h : Handler W) w err w' tr :
  run h caching w = (inr err, w', tr) →
  run h (atomHandler xml_Marshal xml_Unmarshal) w
  = (Some (None, http_Error ("failed to get upstream atom: " +:+ err)
                            StatusInternalServerError), w', tr) ∧
  run h (mainHandler xml_Marshal xml_Unmarshal html_UnescapeString mainTemplate_Execute) w
  = (Some (None, http_Error ("failed to get upstream atom: " +:+ err)
                            StatusInternalServerError), w', tr).
Proof.
  intros H. unfold atomHandler, mainHandler. fold caching.
  rewrite !run_bind, H. cbn. by rewrite app_nil_r.
Qed.

(** X12. When the orchestrator returns a feed, the republish handler writes
    the XML header and the serialization of that feed with the caption
    appended to every summary body, under the content type of Atom; when
    that feed does not serialize it answers with the status 500.  It does
    not panic and makes no call of its own. *)
Theorem atomHandler_republishes {W} (h : Handler W) w feed w' tr :
  run h caching w = (inl feed, w', tr) →
  let feed' := with_entries feed (map captioned (Feed_Entry feed)) in
  run h (atomHandler xml_Marshal xml_Unmarshal) w
  = (Some (Some feed',
           match xml_Marshal feed' with
           | inl b => [Header_Set "Content-Type" "application/atom+xml";
                       Write_ xml_Header; Write_ b]
           | inr _ => http_Error "failed to marshal feed" StatusInternalServerError
           end), w', tr).
Proof.
  intros H feed'. unfold atomHandler. fold caching.
  rewrite run_bind, H.
  unfold atomHandler_render. rewrite appendAltTexts_all. cbn [mbind option_bind].
  fold feed'. destruct (xml_Marshal feed'); cbn; by rewrite app_nil_r.
Qed.

(** The loop of [mainHandler] from index [length l1] on appends the page
    entries of the entries left. *)
Lemma pageEntries_map feed l1 l2 acc :
  Feed_Entry feed = l1 ++ l2 →
  pageEntries html_UnescapeString (seq (length l1) (length l2)) feed acc
  = Some (acc ++ map (page_of html_UnescapeString) l2).
Proof.
  revert l1 acc. induction l2 as [|e l2 IH]; intros l1 acc Hf.
  - by rewrite app_nil_r.
  - cbn [length seq pageEntries]. unfold appendPageEntry. rewrite Hf.
    rewrite list_lookup_middle by done. cbn [mbind option_bind].
    destruct (AltText_total e) as [alt Halt]. rewrite Halt. cbn [mbind option_bind].
    assert (Hp : page_of html_UnescapeString e
                 = {| pageEntry_Title := Entry_Title e;
                      Img := html_UnescapeString (Body (Entry_Summary e));
                      Text := html_UnescapeString alt |}).
    { unfold page_of. by rewrite Halt. }
    rewrite <- Hp.
    specialize (IH (l1 ++ [e]) (acc ++ [page_of html_UnescapeString e])).
    rewrite length_app, Nat.add_1_r in IH.
    rewrite IH by (by rewrite <- (assoc_L (++))).
    cbn [map]. by rewrite <- (assoc_L (++)).
Qed.

(** X13. The page handler hands to the template one page entry per entry of
    the feed, in the order of the feed: the title, the unescaped summary
    body and the unescaped caption.  It writes what the template wrote,
    followed by the answer 500 when the template failed, and leaves the
    feed as it was. *)
Theorem mainHandler_render_entries (feed : Feed) :
  let entries := map (page_of html_UnescapeString) (Feed_Entry feed) in
  mainHandler_render html_UnescapeString mainTemplate_Execute feed
  = Some (feed, entries,
          match (mainTemplate_Execute entries).2 with
          | Some _ =>
            Write_ (mainTemplate_Execute entries).1
            :: http_Error "failed to execute template" StatusInternalServerError
          | None => [Write_ (mainTemplate_Execute entries).1]
          end).
Proof.
  intros entries. unfold mainHandler_render.
  pose proof (pageEntries_map feed [] (Feed_Entry feed) [] eq_refl) as Hl.
  cbn [length app] in Hl. rewrite Hl.
  cbn [mbind option_bind]. fold entries.
  by destruct (mainTemplate_Execute entries) as [written [err|]].
Qed.

End Further.


Lemma fetch_reads_and_closes_the_body_witness :
  (existsb is_body_read
     (run world (getUpstreamAtom sample_Unmarshal) (sample_world 404 (lit "T"))).2 = false ∧
   existsb is_body_close
     (run world (getUpstreamAtom sample_Unmarshal) (sample_world 404 (lit "T"))).2 = false ∧
   (run world (getUpstreamAtom sample_Unmarshal) (sample_world 404 (lit "T"))).1.1
   = inr errNotOK) ∧
  (existsb is_body_read
     (run world (getUpstreamAtom sample_Unmarshal) (sample_world 200 [])).2 = true ∧
   last (run world (getUpstreamAtom sample_Unmarshal) (sample_world 200 [])).2
   = Some (Ev Body_Close ())).
Proof.
  split.
  - destruct (fetch_reads_and_closes_the_body sample_Unmarshal world
                (sample_world 404 (lit "T")) _ _ _ eq_refl)
      as (H1 & H2 & _ & _ & _ & _ & H3).
    split; [exact H1|]. split; [exact H2|]. exact (proj1 (H3 eq_refl)).
  - destruct (fetch_reads_and_closes_the_body sample_Unmarshal world
                (sample_world 200 []) _ _ _ eq_refl)
      as (H1 & _ & _ & _ & H2 & _).
    split; [exact H1|]. exact (H2 eq_refl).
Defined.

Lemma fetch_parses_the_rewritten_body_witness :
  ∃ resp b,
    StatusCode resp = StatusOK ∧
    sample_Unmarshal (ReplaceAll b) = inl (sample_feed (lit "https://xkcd.com/1/")).
Proof.
  destruct (fetch_parses_the_rewritten_body sample_Unmarshal world
              (sample_world 200 (lit "http://xkcd.com/1/"))
              (sample_feed (lit "https://xkcd.com/1/")) _ _ eq_refl)
    as (resp & b & _ & Hs & Hu & _).
  by exists resp, b.
Defined.

Lemma error_means_nothing_cached_witness :
  existsb is_cache_write
    (run world (cachingGetUpstreamAtom sample_Marshal sample_Unmarshal)
         (sample_world 200 [])).2 = false.
Proof.
  apply (error_means_nothing_cached sample_Marshal sample_Unmarshal world
           (sample_world 200 []) (errUnmarshalFeed "EOF") _ _ eq_refl).
Defined.

Lemma cache_write_stores_the_returned_feed_witness :
  ∃ feed b ans,
    (run world (cachingGetUpstreamAtom sample_Marshal sample_Unmarshal)
         (sample_world 200 (lit "T"))).1.1 = inl feed ∧
    sample_Marshal feed = inl b ∧
    last (run world (cachingGetUpstreamAtom sample_Marshal sample_Unmarshal)
              (sample_world 200 (lit "T"))).2
    = Some (Ev (memcache_Set (atomItem b)) ans).
Proof.
  destruct (cache_write_stores_the_returned_feed sample_Marshal sample_Unmarshal world
              (sample_world 200 (lit "T")) _ _ _ eq_refl) as [_ H].
  destruct (H eq_refl) as (feed & b & ans & H1 & H2 & H3 & _).
  exists feed, b, ans. split; [exact H1|]. split; [exact H2|exact H3].
Defined.

Lemma fetch_exactly_on_lookup_failure_witness :
  length (run world (cachingGetUpstreamAtom sample_Marshal sample_Unmarshal)
              (sample_cached (lit "T") (sample_world 200 (lit "U")))).2 = 2.
Proof.
  destruct (fetch_exactly_on_lookup_failure sample_Marshal sample_Unmarshal world
              (sample_cached (lit "T") (sample_world 200 (lit "U"))) _ _ _ eq_refl)
    as (_ & _ & H).
  apply H. reflexivity.
Defined.

Lemma handlers_report_the_error_witness :
  (run world (atomHandler sample_Marshal sample_Unmarshal) (sample_world 404 [])).1.1
  = Some (None, http_Error ("failed to get upstream atom: " +:+ errNotOK)
                           StatusInternalServerError).
Proof.
  destruct (handlers_report_the_error sample_Marshal sample_Unmarshal
              sample_Unescape sample_Execute world (sample_world 404 [])
              errNotOK _ _ eq_refl) as [H _].
  by rewrite H.
Defined.

Lemma atomHandler_republishes_witness :
  (run world (atomHandler sample_Marshal sample_Unmarshal)
       (sample_world 200 (lit "T"))).1.1
  = Some (Some (sample_feed (lit "T")),
          [Header_Set "Content-Type" "application/atom+xml";
           Write_ xml_Header; Write_ (lit "T")]).
Proof.
  pose proof (atomHandler_republishes sample_Marshal sample_Unmarshal world
                (sample_world 200 (lit "T")) (sample_feed (lit "T")) _ _ eq_refl) as H.
  cbv zeta in H. by rewrite H.
Defined.
